(** * Linear coding agent framework: caching layer and progress engine

    A shallow embedding of [linear_cache.py] (classes [LinearCache] and
    [CachedLinearClient]) and of [linear_enhanced.py] (class
    [EnhancedLinearIntegration]), with the properties of the cache tiers,
    the rate window, the progress formula, the milestone selection and the
    health classification.

    Conventions of the embedding.
    - A Python [float] is the rational number it denotes ([Q]), and
      comparisons are decided with [Qcompare].  The float arithmetic of
      [calculate_progress] rounds every result to the nearest binary64
      number ([double]); the readings of the clock and the float arguments
      of the other methods are taken as given.  Python [int]s are [Z].
    - A [dict] used as a map is a [gmap]; a [dict] used as a record with
      optional keys is a record of [option] fields ([d.get(k)] is the field).
    - A method is a computation in a state monad over the object it mutates;
      the readings of the wall clock ([time.time()], [datetime.now()]) are
      passed in as the argument [now].
    - [print] and the file written by [save_cache] / [_save_project_data] are
      not part of the state: only the in-memory objects are modelled. *)

From Stdlib Require Import QArith Qround Lqa Ascii Qpower Qabs.
From stdpp Require Import gmap strings list fin_maps pretty sorting.

(** ** Python values *)

(** [x < y] on floats. *)
Definition Qltb (x y : Q) : bool :=
  match (x ?= y)%Q with
  | Lt => true
  | _ => false
  end.

(** Truth value of a string: the empty string is falsy. *)
Definition truthy (s : string) : bool :=
  match s with
  | EmptyString => false
  | String _ _ => true
  end.

(** The nearest integer, a tie going to the even one. *)
Definition round_half_even (q : Q) : Z :=
  let f := Qfloor q in
  match (q - inject_Z f ?= 1 # 2)%Q with
  | Lt => f
  | Gt => (f + 1)%Z
  | Eq => if Z.even f then f else (f + 1)%Z
  end.

(** [floor(log2(x))] for [x > 0]. *)
Definition Qlog2 (x : Q) : Z :=
  let e := (Z.log2 (Qnum x) - Z.log2 (Z.pos (Qden x)))%Z in
  if Qle_bool (2 ^ e) x then e else (e - 1)%Z.

(** The binary64 number nearest to [x], a tie going to the even
    significand: [x] is rounded to 53 significant bits.  The range of the
    exponent is not limited: a double has its exponent between -1074 and
    971, so the value agrees with the hardware while the magnitudes stay
    between 2^-1022 and 2^1024, that is for every count below 10^300. *)
Definition double (x : Q) : Q :=
  let e := (Qlog2 (Qabs x) - 52)%Z in
  (inject_Z (round_half_even (x / 2 ^ e)) * 2 ^ e)%Q.

(** [float(z)] and the operations on floats: the exact result, rounded. *)
Definition float_of_int (z : Z) : Q := double (inject_Z z).

Definition float_add (x y : Q) : Q := double (x + y).

Definition float_mul (x y : Q) : Q := double (x * y).

Definition float_div (x y : Q) : Q := double (x / y).

(** [a / b] on two ints: the exact quotient, rounded once. *)
Definition int_truediv (a b : Z) : Q := double (inject_Z a / inject_Z b).

(** The multiple of [10 ^ -ndigits] nearest to [number], a tie going to the
    even one. *)
Definition decimal_round (number : Q) (ndigits : nat) : Q :=
  let scale := inject_Z (10 ^ Z.of_nat ndigits) in
  (inject_Z (round_half_even (number * scale)) / scale)%Q.

(** [round(number, ndigits)] on a float: the decimal nearest to the exact
    value of the float, then the double nearest to that decimal. *)
Definition py_round (number : Q) (ndigits : nat) : Q :=
  double (decimal_round number ndigits).

(** [int(x)] on a float: truncation towards zero. *)
Definition py_int (x : Q) : Z := Z.quot (Qnum x) (Z.pos (Qden x)).

(** [l[k]] on a list: a negative index counts from the end, and an index
    out of range raises [IndexError], which is [None] here. *)
Definition py_index {A : Type} (l : list A) (k : Z) : option A :=
  let n := Z.of_nat (length l) in
  if (0 <=? k)%Z then l !! Z.to_nat k
  else if (- n <=? k)%Z then l !! Z.to_nat (n + k)
  else None.

(** [l.sort(key=key)]: the sort is stable, an element stays before the
    later elements that have the same key. *)
Fixpoint insert_by_key {A : Type} (key : A -> Z) (x : A) (l : list A) : list A :=
  match l with
  | [] => [x]
  | y :: l' => if (key x <=? key y)%Z then x :: y :: l' else y :: insert_by_key key x l'
  end.

Fixpoint sort_by_key {A : Type} (key : A -> Z) (l : list A) : list A :=
  match l with
  | [] => []
  | x :: l' => insert_by_key key x (sort_by_key key l')
  end.

(** [sep.join(parts)] *)
Fixpoint join (sep : string) (parts : list string) : string :=
  match parts with
  | [] => ""
  | part :: rest =>
      match rest with
      | [] => part
      | _ :: _ => part +:+ sep +:+ join sep rest
      end
  end.

Definition newline : string := String "010"%char EmptyString.

(** An issue as returned by the tracker: a dict with optional keys.
    [issue_state_name i] is [i.get('state', {}).get('name')]. *)
Record Issue := {
  issue_id : option string;
  issue_title : option string;
  issue_description : option string;
  issue_priority : option Z;
  issue_state_name : option string
}.

(** ** Methods as state computations *)

Definition State (S A : Type) : Type := S -> A * S.

Definition ret {S A : Type} (a : A) : State S A := fun s => (a, s).

Definition bind {S A B : Type} (m : State S A) (k : A -> State S B) : State S B :=
  fun s => let (a, s') := m s in k a s'.

Definition gets {S A : Type} (f : S -> A) : State S A := fun s => (f s, s).

Definition modify {S : Type} (f : S -> S) : State S unit := fun s => (tt, f s).

Definition eval {S A : Type} (m : State S A) (s : S) : A := fst (m s).

Definition exec {S A : Type} (m : State S A) (s : S) : S := snd (m s).

Declare Scope state_scope.
Delimit Scope state_scope with state.
Notation "x <- m ;; k" := (bind m (fun x => k))
  (at level 100, m at next level, k at level 200, right associativity) : state_scope.
Notation "m ;; k" := (bind m (fun _ => k))
  (at level 100, k at level 200, right associativity) : state_scope.
Open Scope state_scope.

(** [for x in xs: body(x)] *)
Fixpoint for_each {S A : Type} (xs : list A) (body : A -> State S unit) : State S unit :=
  match xs with
  | [] => ret tt
  | x :: xs' => body x ;; for_each xs' body
  end.

(** ** linear_cache.py *)

Module linear_cache.

(** A value of [permanent_cache['issues']]. *)
Record PermanentEntry := {
  entry_id : string;
  entry_title : option string;
  entry_description : option string;
  entry_priority : option Z;
  entry_cached_at : Q
}.

(** A value of [session_cache]: [{'issues': ..., 'timestamp': ...}]. *)
Record SessionEntry := {
  session_issues : list Issue;
  session_timestamp : Q
}.

(** The attributes of a [LinearCache] object; [permanent_cache_issues] is
    [permanent_cache['issues']]. *)
Record LinearCache := {
  session_cache : gmap string SessionEntry;
  api_call_count : Z;
  api_call_timestamps : list Q;
  permanent_cache_issues : gmap string PermanentEntry
}.

Definition set_session_cache (v : gmap string SessionEntry) (self : LinearCache) : LinearCache :=
  {| session_cache := v;
     api_call_count := api_call_count self;
     api_call_timestamps := api_call_timestamps self;
     permanent_cache_issues := permanent_cache_issues self |}.

Definition set_api_call_count (v : Z) (self : LinearCache) : LinearCache :=
  {| session_cache := session_cache self;
     api_call_count := v;
     api_call_timestamps := api_call_timestamps self;
     permanent_cache_issues := permanent_cache_issues self |}.

Definition set_api_call_timestamps (v : list Q) (self : LinearCache) : LinearCache :=
  {| session_cache := session_cache self;
     api_call_count := api_call_count self;
     api_call_timestamps := v;
     permanent_cache_issues := permanent_cache_issues self |}.

Definition set_permanent_cache_issues (v : gmap string PermanentEntry) (self : LinearCache) : LinearCache :=
  {| session_cache := session_cache self;
     api_call_count := api_call_count self;
     api_call_timestamps := api_call_timestamps self;
     permanent_cache_issues := v |}.

(** [__init__] followed by [load_cache]: [stored] is the permanent tier read
    from the cache file, [None] when the file is missing or unreadable. *)
Definition init (stored : option (gmap string PermanentEntry)) : LinearCache :=
  {| session_cache := ∅;
     api_call_count := 0;
     api_call_timestamps := [];
     permanent_cache_issues := default ∅ stored |}.

(** [save_cache] rewrites the cache file and swallows every I/O error; the
    object is left as it is. *)
Definition save_cache : State LinearCache unit := ret tt.

Definition track_api_call (now : Q) : State LinearCache nat :=
  modify (fun self => set_api_call_count (api_call_count self + 1) self) ;;
  modify (fun self => set_api_call_timestamps (api_call_timestamps self ++ [now]) self) ;;
  let one_hour_ago := (now - 3600)%Q in
  modify (fun self =>
    set_api_call_timestamps
      (List.filter (fun t => Qltb one_hour_ago t) (api_call_timestamps self)) self) ;;
  ts <- gets api_call_timestamps ;;
  ret (length ts).

Definition get_cached_issue (issue_id : string) : State LinearCache (option PermanentEntry) :=
  gets (fun self => permanent_cache_issues self !! issue_id).

(** The dict stored by [cache_issue]. *)
Definition make_entry (issue_id : string) (issue_data : Issue) (now : Q) : PermanentEntry :=
  {| entry_id := issue_id;
     entry_title := issue_title issue_data;
     entry_description := issue_description issue_data;
     entry_priority := issue_priority issue_data;
     entry_cached_at := now |}.

Definition cache_issue (issue_id : string) (issue_data : Issue) (now : Q) : State LinearCache unit :=
  present <- gets (fun self => permanent_cache_issues self !! issue_id) ;;
  match present with
  | None =>
      modify (fun self =>
        set_permanent_cache_issues
          (<[issue_id := make_entry issue_id issue_data now]> (permanent_cache_issues self)) self) ;;
      save_cache
  | Some _ => ret tt
  end.

Definition cache_key (project_id : string) : string := "issues_" +:+ project_id.

Definition get_session_issues (project_id : string) (now : Q)
  : State LinearCache (option (list Issue)) :=
  cached_data <- gets (fun self => session_cache self !! cache_key project_id) ;;
  match cached_data with
  | Some d =>
      let cached_time := session_timestamp d in
      if Qltb (now - cached_time) 300 then ret (Some (session_issues d)) else ret None
  | None => ret None
  end.

Definition cache_session_issues (project_id : string) (issues : list Issue) (now : Q)
  : State LinearCache unit :=
  modify (fun self =>
    set_session_cache
      (<[cache_key project_id := {| session_issues := issues; session_timestamp := now |}]>
         (session_cache self)) self) ;;
  for_each issues (fun issue =>
    match issue_id issue with
    | Some i => if truthy i then cache_issue i issue now else ret tt
    | None => ret tt
    end).

Definition invalidate_session_cache (project_id : string) : State LinearCache unit :=
  present <- gets (fun self => session_cache self !! cache_key project_id) ;;
  match present with
  | Some _ => modify (fun self => set_session_cache (delete (cache_key project_id) (session_cache self)) self)
  | None => ret tt
  end.

(** The dict returned by [get_api_stats]. *)
Record ApiStats := {
  total_calls_session : Z;
  calls_last_hour : nat;
  rate_limit : Z;
  percentage_used : Q;
  cached_issues : nat
}.

Definition get_api_stats : State LinearCache ApiStats :=
  n <- gets (fun self => length (api_call_timestamps self)) ;;
  total <- gets api_call_count ;;
  cached <- gets (fun self => size (permanent_cache_issues self)) ;;
  ret {| total_calls_session := total;
         calls_last_hour := n;
         rate_limit := 1500;
         percentage_used := (inject_Z (Z.of_nat n) / 1500 * 100)%Q;
         cached_issues := cached |}.

(** *** CachedLinearClient

    The client keeps a reference to the cache it was built with, so its
    methods act on that same [LinearCache].  The arguments [agent_client]
    and [**kwargs] are not read by the methods below. *)

Definition list_issues (project_id : string) (status : option string) (now : Q)
  : State LinearCache (list Issue) :=
  cached_issues <- get_session_issues project_id now ;;
  match cached_issues with
  | Some (first :: rest) =>
      let cached_issues := first :: rest in
      match status with
      | Some wanted =>
          if truthy wanted
          then ret (List.filter (fun i => bool_decide (issue_state_name i = Some wanted)) cached_issues)
          else ret cached_issues
      | None => ret cached_issues
      end
  | _ =>
      track_api_call now ;;
      ret []
  end.

Definition get_issue (issue_id : string) (now : Q) : State LinearCache (option PermanentEntry) :=
  cached <- get_cached_issue issue_id ;;
  match cached with
  | Some entry => ret (Some entry)
  | None =>
      track_api_call now ;;
      ret None
  end.

Definition update_issue (issue_id : string) (now : Q) : State LinearCache unit :=
  track_api_call now ;;
  ret tt.

Definition create_comment (issue_id : string) (body : string) (now : Q) : State LinearCache unit :=
  track_api_call now ;;
  ret tt.

End linear_cache.

(** ** linear_enhanced.py *)

Module linear_enhanced.

(** A value of [MILESTONES]. *)
Record Milestone := {
  milestone_name : string;
  milestone_description : string;
  target_percentage : Z
}.

Definition setup_milestone : Milestone :=
  {| milestone_name := "Project Setup";
     milestone_description := "Initial project scaffolding and infrastructure";
     target_percentage := 10 |}.

Definition core_milestone : Milestone :=
  {| milestone_name := "Core Features";
     milestone_description := "Essential functionality and critical features";
     target_percentage := 40 |}.

Definition features_milestone : Milestone :=
  {| milestone_name := "Feature Implementation";
     milestone_description := "Secondary features and enhancements";
     target_percentage := 75 |}.

Definition polish_milestone : Milestone :=
  {| milestone_name := "Polish & Refinement";
     milestone_description := "UI polish, performance optimization, bug fixes";
     target_percentage := 95 |}.

Definition complete_milestone : Milestone :=
  {| milestone_name := "Project Complete";
     milestone_description := "All features implemented and tested";
     target_percentage := 100 |}.

(** The class attribute [MILESTONES]; a dict is iterated in the order its
    keys were inserted, so it is kept as an association list. *)
Definition MILESTONES : list (string * Milestone) :=
  [ ("setup", setup_milestone);
    ("core", core_milestone);
    ("features", features_milestone);
    ("polish", polish_milestone);
    ("complete", complete_milestone) ].

(** A session summary handed to [update_session_history]. *)
Record SessionSummary := {
  summary_health : option string;
  summary_progress_percentage : option Q;
  summary_velocity : option Q;
  summary_issues_completed : option Z
}.

Record HealthRecord := {
  health_timestamp : Q;
  health : string;
  progress : Q
}.

Record VelocityRecord := {
  velocity_timestamp : Q;
  velocity_value : Q;
  issues_completed : Z
}.

(** [self.project_data], the content of [.linear_project.json], restricted
    to the keys that the methods below read or write.  A key that is
    missing from the dict is [None]. *)
Record ProjectData := {
  session_count : option Z;
  session_history : option (list SessionSummary);
  health_history : option (list HealthRecord);
  velocity_history : option (list VelocityRecord)
}.

Definition set_session_count (v : option Z) (pd : ProjectData) : ProjectData :=
  {| session_count := v;
     session_history := session_history pd;
     health_history := health_history pd;
     velocity_history := velocity_history pd |}.

Definition set_session_history (v : option (list SessionSummary)) (pd : ProjectData) : ProjectData :=
  {| session_count := session_count pd;
     session_history := v;
     health_history := health_history pd;
     velocity_history := velocity_history pd |}.

Definition set_health_history (v : option (list HealthRecord)) (pd : ProjectData) : ProjectData :=
  {| session_count := session_count pd;
     session_history := session_history pd;
     health_history := v;
     velocity_history := velocity_history pd |}.

Definition set_velocity_history (v : option (list VelocityRecord)) (pd : ProjectData) : ProjectData :=
  {| session_count := session_count pd;
     session_history := session_history pd;
     health_history := health_history pd;
     velocity_history := v |}.

(** [_save_project_data] writes the file; the dict is left as it is. *)
Definition _save_project_data : State ProjectData unit := ret tt.

(** The dict returned by [calculate_progress]. *)
Record Progress := {
  total_issues : Z;
  completed : Z;
  in_progress : Z;
  todo : Z;
  progress_percentage : Q;
  velocity : Q;
  estimated_completion : string
}.

(** [sum(1 for i in issues if i.get('state', {}).get('name') == name)] *)
Definition count_state (name : string) (issues : list Issue) : Z :=
  Z.of_nat (length (List.filter (fun i => bool_decide (issue_state_name i = Some name)) issues)).

(** The arithmetic is that of Python: an int meeting a float is converted
    first, every float operation rounds its result, and [completed / sessions]
    on two ints rounds the exact quotient.  (With a [session_count] beyond
    10^300 the division by a tiny velocity overflows and [int(days)] raises
    [OverflowError]; that range is outside [double].) *)
Definition calculate_progress (issues : list Issue) : State ProjectData Progress :=
  let total := Z.of_nat (length issues) in
  let completed := count_state "Done" issues in
  let in_progress := count_state "In Progress" issues in
  let todo := (total - completed - in_progress)%Z in
  let progress_percentage :=
    if (0 <? total)%Z
    then
      float_mul
        (float_div
           (float_add (float_of_int completed)
              (float_mul (25 # 100) (float_of_int in_progress)))
           (float_of_int total))
        (float_of_int 100)
    else 0%Q in
  stored <- gets session_count ;;
  let sessions := default 1%Z stored in
  let velocity :=
    if (0 <? sessions)%Z then int_truediv completed sessions else 0%Q in
  let remaining_issues := (todo + in_progress)%Z in
  let estimated_sessions :=
    if Qltb 0 velocity then float_div (float_of_int remaining_issues) velocity else 0%Q in
  let estimated_completion :=
    if Qltb 0 velocity
    then
      let days := float_mul estimated_sessions (5 # 10) in
      pretty (py_int days) +:+ " days"
    else "Unknown" in
  ret {| total_issues := total;
         completed := completed;
         in_progress := in_progress;
         todo := todo;
         progress_percentage := py_round progress_percentage 1;
         velocity := py_round velocity 2;
         estimated_completion := estimated_completion |}.

(** The dict returned by [determine_current_milestone]. *)
Record CurrentMilestone := {
  current_key : string;
  current_name : string;
  current_description : string;
  current_target : Z
}.

(** The loop of [determine_current_milestone] over the items of a dict. *)
Fixpoint first_milestone_above (progress_percentage : Q) (items : list (string * Milestone))
  : option CurrentMilestone :=
  match items with
  | [] => None
  | (key, milestone) :: rest =>
      if Qltb progress_percentage (inject_Z (target_percentage milestone))
      then Some {| current_key := key;
                   current_name := milestone_name milestone;
                   current_description := milestone_description milestone;
                   current_target := target_percentage milestone |}
      else first_milestone_above progress_percentage rest
  end.

Definition determine_current_milestone (progress_percentage : Q) : CurrentMilestone :=
  match first_milestone_above progress_percentage MILESTONES with
  | Some found => found
  | None =>
      {| current_key := "complete";
         current_name := milestone_name complete_milestone;
         current_description := milestone_description complete_milestone;
         current_target := 100 |}
  end.

Definition determine_health_status (progress_percentage velocity : Q) (errors_count : Z) : string :=
  if Qltb (8 # 10) velocity && (errors_count <? 5)%Z && Qltb 20 progress_percentage
  then "on_track"
  else if Qltb (3 # 10) velocity && (errors_count <? 10)%Z
  then "at_risk"
  else "off_track".

(** The keys of the dict returned by [create_initializer_summary] that
    [ProjectData] keeps. *)
Definition create_initializer_summary : ProjectData :=
  {| session_count := Some 0%Z;
     session_history := None;
     health_history := Some [];
     velocity_history := Some [] |}.

Definition update_session_history (session_summary : SessionSummary) (now : Q)
  : State ProjectData unit :=
  present <- gets session_history ;;
  match present with
  | None => modify (set_session_history (Some []))
  | Some _ => ret tt
  end ;;
  modify (fun pd =>
    set_session_history ((fun h => h ++ [session_summary]) <$> session_history pd) pd) ;;
  modify (fun pd =>
    set_session_count ((fun h => Z.of_nat (length h)) <$> session_history pd) pd) ;;
  present <- gets health_history ;;
  match present with
  | None => modify (set_health_history (Some []))
  | Some _ => ret tt
  end ;;
  modify (fun pd =>
    set_health_history
      ((fun h => h ++ [ {| health_timestamp := now;
                           health := default "unknown" (summary_health session_summary);
                           progress := default 0%Q (summary_progress_percentage session_summary) |} ])
         <$> health_history pd) pd) ;;
  present <- gets velocity_history ;;
  match present with
  | None => modify (set_velocity_history (Some []))
  | Some _ => ret tt
  end ;;
  modify (fun pd =>
    set_velocity_history
      ((fun h => h ++ [ {| velocity_timestamp := now;
                           velocity_value := default 0%Q (summary_velocity session_summary);
                           issues_completed := default 0%Z (summary_issues_completed session_summary) |} ])
         <$> velocity_history pd) pd) ;;
  _save_project_data.

(** The labels of [_generate_next_priorities], indexed by [priority - 1]. *)
Definition priority_labels : list string :=
  [ "ðŸ”´ URGENT"; "ðŸŸ  HIGH"; "ðŸŸ¡ MEDIUM"; "ðŸŸ¢ LOW" ].

(** The text returned when no issue is left in state 'Todo'. *)
Definition all_completed_message : string :=
  "ðŸŽ‰ All issues completed!".

(** The body of the loop of [_generate_next_priorities]; [None] when the
    index of the label raises [IndexError]. *)
Definition next_priority_line (issue : Issue) : option string :=
  let priority := default 4%Z (issue_priority issue) in
  priority_label ← py_index priority_labels (priority - 1);
  let title := default "Unknown" (issue_title issue) in
  Some ("- " +:+ priority_label +:+ ": " +:+ title).

(** [_generate_next_priorities(all_issues, progress)]; the argument
    [progress] is not read.  [None] is the [IndexError] of the label. *)
Definition _generate_next_priorities (all_issues : list Issue) : option string :=
  let todo_issues :=
    List.filter (fun i => bool_decide (issue_state_name i = Some "Todo")) all_issues in
  let todo_issues := sort_by_key (fun x => default 4%Z (issue_priority x)) todo_issues in
  let top_3 := take 3 todo_issues in
  match top_3 with
  | [] => Some all_completed_message
  | _ :: _ =>
      priorities ← mapM next_priority_line top_3;
      Some (join newline priorities)
  end.

End linear_enhanced.

(** ** Properties of the Python values and of the state monad *)

Lemma Qltb_lt (x y : Q) : Qltb x y = true <-> (x < y)%Q.
Proof.
  unfold Qltb. rewrite Qlt_alt. destruct (x ?= y)%Q; split; congruence.
Qed.

Lemma Qltb_ge (x y : Q) : Qltb x y = false <-> (y <= x)%Q.
Proof.
  rewrite <- not_true_iff_false, Qltb_lt. split.
  - apply Qnot_lt_le.
  - apply Qle_not_lt.
Qed.

(** Rounding respects the equality of rationals, fixes the integers and is
    monotone. *)
Lemma round_half_even_comp x y : (x == y)%Q -> round_half_even x = round_half_even y.
Proof.
  intros Hxy. unfold round_half_even.
  rewrite (Qfloor_comp _ _ Hxy).
  assert (Hc : (x - inject_Z (Qfloor y) ?= 1 # 2)%Q = (y - inject_Z (Qfloor y) ?= 1 # 2)%Q).
  { apply Qcompare_comp; [rewrite Hxy|]; reflexivity. }
  rewrite Hc. reflexivity.
Qed.

Lemma round_half_even_inject z : round_half_even (inject_Z z) = z.
Proof.
  unfold round_half_even. rewrite Qfloor_Z.
  destruct (Qcompare_spec (inject_Z z - inject_Z z) (1 # 2)) as [H|H|H];
    [exfalso; lra | reflexivity | exfalso; lra].
Qed.

Lemma round_half_even_mono x y : (x <= y)%Q -> (round_half_even x <= round_half_even y)%Z.
Proof.
  intros Hxy. pose proof (Qfloor_resp_le _ _ Hxy) as Hf.
  unfold round_half_even.
  destruct (Z.eq_dec (Qfloor x) (Qfloor y)) as [Heq | Hne].
  - rewrite <- Heq.
    destruct (Qcompare_spec (x - inject_Z (Qfloor x)) (1 # 2)) as [Hx|Hx|Hx];
      destruct (Qcompare_spec (y - inject_Z (Qfloor x)) (1 # 2)) as [Hy|Hy|Hy];
      try (destruct (Z.even (Qfloor x))); try lia; exfalso; lra.
  - destruct (x - inject_Z (Qfloor x) ?= 1 # 2)%Q, (y - inject_Z (Qfloor y) ?= 1 # 2)%Q;
      try (destruct (Z.even (Qfloor x))); try (destruct (Z.even (Qfloor y))); lia.
Qed.

(** *** Rounding to a double *)

Lemma pow2_pos (e : Z) : (0 < 2 ^ e)%Q.
Proof. apply Qpower_0_lt. reflexivity. Qed.

Lemma pow2_plus (a b : Z) : (2 ^ (a + b) == 2 ^ a * 2 ^ b)%Q.
Proof. apply Qpower_plus. discriminate. Qed.

Lemma pow2_minus (a b : Z) : (2 ^ (a - b) == 2 ^ a / 2 ^ b)%Q.
Proof. apply Qpower_minus. discriminate. Qed.

Lemma pow2_le (a b : Z) : (a <= b)%Z -> (2 ^ a <= 2 ^ b)%Q.
Proof. intros H. apply Qpower_le_compat_l; [exact H | discriminate]. Qed.

Lemma pow2_lt (a b : Z) : (a < b)%Z -> (2 ^ a < 2 ^ b)%Q.
Proof. intros H. apply Qpower_lt_compat_l; [exact H | reflexivity]. Qed.

Lemma pow2_lt_inv (a b : Z) : (2 ^ a < 2 ^ b)%Q -> (a < b)%Z.
Proof. intros H. eapply Qpower_lt_compat_l_inv; [exact H | reflexivity]. Qed.

Lemma pow2_inject (n : Z) : (0 <= n)%Z -> (inject_Z (2 ^ n) == 2 ^ n)%Q.
Proof. intros H. by rewrite Zpower_Qpower. Qed.

Lemma Qlog2_spec (x : Q) :
  (0 < x)%Q -> (2 ^ Qlog2 x <= x)%Q /\ (x < 2 ^ (Qlog2 x + 1))%Q.
Proof.
  intros Hx. unfold Qlog2. cbv zeta.
  destruct x as [n d]. cbn [Qnum Qden].
  assert (Hn : (0 < n)%Z) by (unfold Qlt in Hx; cbn in Hx; lia).
  destruct (Z.log2_spec n Hn) as [Hn1 Hn2].
  destruct (Z.log2_spec (Z.pos d) (Pos2Z.is_pos d)) as [Hd1 Hd2].
  pose proof (Z.log2_nonneg n) as Ha. pose proof (Z.log2_nonneg (Z.pos d)) as Hb.
  set (a := Z.log2 n) in *. set (b := Z.log2 (Z.pos d)) in *.
  assert (Hx' : (n # d == inject_Z n / inject_Z (Z.pos d))%Q) by apply Qmake_Qdiv.
  assert (Hdq : (0 < inject_Z (Z.pos d))%Q) by (change 0%Q with (inject_Z 0); by rewrite <- Zlt_Qlt).
  assert (Hn1q : (2 ^ a <= inject_Z n)%Q) by (rewrite <- pow2_inject, <- Zle_Qle by lia; exact Hn1).
  assert (Hn2q : (inject_Z n < 2 ^ (a + 1))%Q).
  { rewrite <- pow2_inject, <- Zlt_Qlt by lia. replace (a + 1)%Z with (Z.succ a) by lia. exact Hn2. }
  assert (Hd1q : (2 ^ b <= inject_Z (Z.pos d))%Q) by (rewrite <- pow2_inject, <- Zle_Qle by lia; exact Hd1).
  assert (Hd2q : (inject_Z (Z.pos d) < 2 ^ (b + 1))%Q).
  { rewrite <- pow2_inject, <- Zlt_Qlt by lia. replace (b + 1)%Z with (Z.succ b) by lia. exact Hd2. }
  assert (Hup : (n # d < 2 ^ (a - b + 1))%Q).
  { rewrite Hx'. apply Qlt_shift_div_r; [exact Hdq|].
    replace (a - b + 1)%Z with ((a + 1) - b)%Z by lia.
    rewrite pow2_minus.
    pose proof (pow2_pos b) as Hp. pose proof (pow2_pos (a + 1)) as Hu.
    assert (Hone : (1 <= inject_Z (Z.pos d) / 2 ^ b)%Q) by (apply Qle_shift_div_l; [done | lra]).
    assert (Heq : (2 ^ (a + 1) / 2 ^ b * inject_Z (Z.pos d)
                   == 2 ^ (a + 1) * (inject_Z (Z.pos d) / 2 ^ b))%Q) by (field; lra).
    rewrite Heq. nra. }
  assert (Hlow : (2 ^ (a - b - 1) < n # d)%Q).
  { rewrite Hx'. apply Qlt_shift_div_l; [exact Hdq|].
    replace (a - b - 1)%Z with (a - (b + 1))%Z by lia.
    rewrite pow2_minus.
    pose proof (pow2_pos (b + 1)) as Hp. pose proof (pow2_pos a) as Hu.
    assert (Hone : (inject_Z (Z.pos d) / 2 ^ (b + 1) < 1)%Q) by (apply Qlt_shift_div_r; [done | lra]).
    assert (Heq : (2 ^ a / 2 ^ (b + 1) * inject_Z (Z.pos d)
                   == 2 ^ a * (inject_Z (Z.pos d) / 2 ^ (b + 1)))%Q) by (field; lra).
    rewrite Heq. nra. }
  destruct (Qle_bool (2 ^ (a - b)) (n # d)) eqn:Hcmp.
  - apply Qle_bool_iff in Hcmp. split; assumption.
  - assert (Hlt : (n # d < 2 ^ (a - b))%Q).
    { apply Qnot_le_lt. intros Hle. apply Qle_bool_iff in Hle. congruence. }
    replace (a - b - 1 + 1)%Z with (a - b)%Z by lia. split; [by apply Qlt_le_weak | exact Hlt].
Qed.

Lemma Qlog2_unique (x : Q) (e : Z) :
  (2 ^ e <= x)%Q -> (x < 2 ^ (e + 1))%Q -> Qlog2 x = e.
Proof.
  intros Hlow Hup.
  assert (Hx : (0 < x)%Q) by (pose proof (pow2_pos e); lra).
  destruct (Qlog2_spec x Hx) as [Hl Hu].
  assert (H1 : (Qlog2 x < e + 1)%Z) by (apply pow2_lt_inv; lra).
  assert (H2 : (e < Qlog2 x + 1)%Z) by (apply pow2_lt_inv; lra).
  lia.
Qed.

Lemma Qlog2_mono (x y : Q) : (0 < x)%Q -> (x <= y)%Q -> (Qlog2 x <= Qlog2 y)%Z.
Proof.
  intros Hx Hxy.
  destruct (Qlog2_spec x Hx) as [Hl _].
  destruct (Qlog2_spec y) as [_ Hu]; [lra|].
  assert (H : (Qlog2 x < Qlog2 y + 1)%Z) by (apply pow2_lt_inv; lra).
  lia.
Qed.

Lemma Qlog2_comp (x y : Q) : (0 < x)%Q -> (x == y)%Q -> Qlog2 x = Qlog2 y.
Proof.
  intros Hx Hxy. destruct (Qlog2_spec x Hx) as [Hl Hu].
  symmetry. apply Qlog2_unique; lra.
Qed.

Lemma double_zero (x : Q) : (x == 0)%Q -> (double x == 0)%Q.
Proof.
  intros Hx. unfold double. cbv zeta.
  generalize (Qlog2 (Qabs x) - 52)%Z. intros e.
  rewrite (round_half_even_comp _ (inject_Z 0)).
  - rewrite round_half_even_inject. ring.
  - rewrite Hx. unfold Qdiv. ring.
Qed.

Lemma Qabs_pos_eq (x : Q) : (0 < x)%Q -> (Qabs x == x)%Q.
Proof. intros Hx. apply Qabs_pos. lra. Qed.

(** For x > 0: the scaled value lies in [2^52, 2^53). *)
Lemma double_scaled (x : Q) :
  (0 < x)%Q ->
  (inject_Z (2 ^ 52) <= x / 2 ^ (Qlog2 x - 52))%Q /\
  (x / 2 ^ (Qlog2 x - 52) <= inject_Z (2 ^ 53))%Q.
Proof.
  intros Hx. destruct (Qlog2_spec x Hx) as [Hl Hu].
  pose proof (pow2_pos (Qlog2 x - 52)) as Hg.
  rewrite !pow2_inject by lia. split.
  - apply Qle_shift_div_l; [exact Hg|]. rewrite <- pow2_plus.
    replace (52 + (Qlog2 x - 52))%Z with (Qlog2 x) by lia. exact Hl.
  - apply Qle_shift_div_r; [exact Hg|]. rewrite <- pow2_plus.
    replace (53 + (Qlog2 x - 52))%Z with (Qlog2 x + 1)%Z by lia. lra.
Qed.

Lemma double_pos_unfold (x : Q) :
  (0 < x)%Q ->
  (double x == inject_Z (round_half_even (x / 2 ^ (Qlog2 x - 52))) * 2 ^ (Qlog2 x - 52))%Q.
Proof.
  intros Hx. unfold double. cbv zeta.
  rewrite (Qlog2_comp (Qabs x) x); [reflexivity | | by apply Qabs_pos_eq].
  rewrite Qabs_pos_eq; assumption.
Qed.

Lemma double_pos_bounds (x : Q) :
  (0 < x)%Q -> (2 ^ Qlog2 x <= double x)%Q /\ (double x <= 2 ^ (Qlog2 x + 1))%Q.
Proof.
  intros Hx. rewrite double_pos_unfold by exact Hx.
  destruct (double_scaled x Hx) as [Hl Hu].
  apply round_half_even_mono in Hl, Hu. rewrite round_half_even_inject in Hl, Hu.
  pose proof (pow2_pos (Qlog2 x - 52)) as Hg.
  rewrite Zle_Qle in Hl, Hu. rewrite !pow2_inject in Hl, Hu by lia.
  split.
  - replace (Qlog2 x) with (52 + (Qlog2 x - 52))%Z at 1 by lia.
    rewrite pow2_plus. by apply Qmult_le_compat_r; [|apply Qlt_le_weak].
  - replace (Qlog2 x + 1)%Z with (53 + (Qlog2 x - 52))%Z by lia.
    rewrite pow2_plus. by apply Qmult_le_compat_r; [|apply Qlt_le_weak].
Qed.

Lemma double_pos (x : Q) : (0 < x)%Q -> (0 < double x)%Q.
Proof.
  intros Hx. destruct (double_pos_bounds x Hx) as [Hl _].
  pose proof (pow2_pos (Qlog2 x)). lra.
Qed.

Lemma double_comp (x y : Q) : (x == y)%Q -> (double x == double y)%Q.
Proof.
  intros Hxy.
  destruct (Qlt_le_dec 0 x) as [Hpos | Hnonpos].
  - rewrite !double_pos_unfold by lra.
    rewrite (Qlog2_comp x y Hpos Hxy).
    rewrite (round_half_even_comp (x / _) (y / 2 ^ (Qlog2 y - 52))); [reflexivity|].
    by rewrite Hxy.
  - destruct (Qlt_le_dec x 0) as [Hneg | Hzero].
    + assert (Hax : (0 < Qabs x)%Q) by (rewrite Qabs_neg by lra; lra).
      assert (Habs : (Qabs x == Qabs y)%Q) by (by rewrite Hxy).
      unfold double. cbv zeta. rewrite (Qlog2_comp _ _ Hax Habs).
      rewrite (round_half_even_comp (x / _) (y / 2 ^ (Qlog2 (Qabs y) - 52))); [reflexivity|].
      by rewrite Hxy.
    + rewrite !double_zero; [reflexivity | lra | lra].
Qed.

Lemma double_mono (x y : Q) : (0 <= x)%Q -> (x <= y)%Q -> (double x <= double y)%Q.
Proof.
  intros Hx Hxy.
  destruct (Qlt_le_dec 0 x) as [Hpos | Hzero].
  - assert (Hy : (0 < y)%Q) by lra.
    pose proof (Qlog2_mono x y Hpos Hxy) as Hlog.
    destruct (Z.eq_dec (Qlog2 x) (Qlog2 y)) as [Heq | Hne].
    + rewrite !double_pos_unfold by assumption. rewrite Heq.
      pose proof (pow2_pos (Qlog2 y - 52)) as Hg.
      apply Qmult_le_compat_r; [|by apply Qlt_le_weak].
      rewrite <- Zle_Qle. apply round_half_even_mono.
      apply Qmult_le_compat_r; [exact Hxy|].
      apply Qlt_le_weak, Qinv_lt_0_compat, Hg.
    + destruct (double_pos_bounds x Hpos) as [_ Hux].
      destruct (double_pos_bounds y Hy) as [Hly _].
      assert (Hstep : (2 ^ (Qlog2 x + 1) <= 2 ^ Qlog2 y)%Q) by (apply pow2_le; lia).
      lra.
  - rewrite (double_zero x) by lra.
    destruct (Qlt_le_dec 0 y) as [Hy | Hy0].
    + by apply Qlt_le_weak, double_pos.
    + rewrite (double_zero y) by lra. lra.
Qed.

(** A value whose scaled form is an integer is a double. *)
Lemma double_exact_scaled (x : Q) (k : Z) :
  (0 < x)%Q -> (x / 2 ^ (Qlog2 x - 52) == inject_Z k)%Q -> (double x == x)%Q.
Proof.
  intros Hx Hk. rewrite double_pos_unfold by exact Hx.
  rewrite (round_half_even_comp _ _ Hk), round_half_even_inject, <- Hk.
  pose proof (pow2_pos (Qlog2 x - 52)). field. lra.
Qed.

Lemma double_exact (m e : Z) :
  (0 <= m <= 2 ^ 53)%Z -> (double (inject_Z m * 2 ^ e) == inject_Z m * 2 ^ e)%Q.
Proof.
  intros [Hm0 Hm].
  destruct (Z.eq_dec m 0%Z) as [-> | Hnz].
  { assert (Hzero : (inject_Z 0 * 2 ^ e == 0)%Q) by ring.
    rewrite (double_zero _ Hzero), Hzero. reflexivity. }
  assert (Hmpos : (0 < m)%Z) by lia.
  assert (Hmq : (0 < inject_Z m)%Q) by (change 0%Q with (inject_Z 0); by rewrite <- Zlt_Qlt).
  pose proof (pow2_pos e) as He.
  assert (Hx : (0 < inject_Z m * 2 ^ e)%Q) by nra.
  destruct (Z.log2_spec m Hmpos) as [Hj1 Hj2].
  pose proof (Z.log2_nonneg m) as Hj0.
  set (j := Z.log2 m) in *.
  assert (Hj53 : (j <= 53)%Z).
  { destruct (Z.le_gt_cases j 53) as [|Hgt]; [done|].
    assert ((2 ^ 54 <= 2 ^ j)%Z) by (apply Z.pow_le_mono_r; lia). lia. }
  assert (Hlog : Qlog2 (inject_Z m * 2 ^ e) = (j + e)%Z).
  { apply Qlog2_unique.
    - rewrite pow2_plus. apply Qmult_le_compat_r; [|by apply Qlt_le_weak].
      rewrite <- pow2_inject, <- Zle_Qle by lia. exact Hj1.
    - replace (j + e + 1)%Z with ((j + 1) + e)%Z by lia. rewrite pow2_plus.
      apply Qmult_lt_compat_r; [exact He|].
      rewrite <- pow2_inject, <- Zlt_Qlt by lia.
      replace (j + 1)%Z with (Z.succ j) by lia. exact Hj2. }
  destruct (Z.eq_dec j 53%Z) as [Hj | Hj].
  - assert (Hm53 : m = (2 ^ 53)%Z).
    { rewrite Hj in Hj1. lia. }
    apply (double_exact_scaled _ (2 ^ 52) Hx). rewrite Hlog, Hj, Hm53.
    replace (53 + e - 52)%Z with (1 + e)%Z by lia. rewrite pow2_plus.
    change (inject_Z (2 ^ 53)) with (inject_Z 2 * inject_Z (2 ^ 52))%Q.
    change (2 ^ 1)%Q with (inject_Z 2). field. lra.
  - apply (double_exact_scaled _ (m * 2 ^ (52 - j)) Hx). rewrite Hlog.
    replace (j + e - 52)%Z with (e - (52 - j))%Z by lia.
    rewrite pow2_minus, inject_Z_mult, pow2_inject by lia.
    pose proof (pow2_pos (52 - j)). field. split; lra.
Qed.

Lemma double_inject (z : Z) : (0 <= z <= 2 ^ 53)%Z -> (double (inject_Z z) == inject_Z z)%Q.
Proof.
  intros Hz.
  assert (Hone : (inject_Z z == inject_Z z * 2 ^ 0)%Q) by (change (2 ^ 0)%Q with 1%Q; ring).
  rewrite (double_comp _ _ Hone), (double_exact z 0 Hz). symmetry. exact Hone.
Qed.

Lemma double_idem (x : Q) : (0 <= x)%Q -> (double (double x) == double x)%Q.
Proof.
  intros Hx. destruct (Qlt_le_dec 0 x) as [Hpos | Hzero].
  - destruct (double_scaled x Hpos) as [Hl Hu].
    apply round_half_even_mono in Hl, Hu. rewrite round_half_even_inject in Hl, Hu.
    rewrite (double_comp _ _ (double_pos_unfold x Hpos)).
    rewrite double_exact by lia. symmetry. by apply double_pos_unfold.
  - rewrite (double_comp _ 0 (double_zero x ltac:(lra))).
    rewrite (double_zero 0) by reflexivity. symmetry. apply double_zero. lra.
Qed.

#[global] Instance double_proper : Proper (Qeq ==> Qeq) double.
Proof.
  intros x y Hxy. by apply double_comp.
Qed.

Lemma double_nonneg (x : Q) : (0 <= x)%Q -> (0 <= double x)%Q.
Proof.
  intros Hx. rewrite <- (double_zero 0) by reflexivity. by apply double_mono.
Qed.

(** *** Rounding to decimals *)

Lemma scale_pos (ndigits : nat) : (0 < inject_Z (10 ^ Z.of_nat ndigits))%Q.
Proof.
  change 0%Q with (inject_Z 0). rewrite <- Zlt_Qlt. apply Z.pow_pos_nonneg; lia.
Qed.

Lemma decimal_round_mono x y ndigits :
  (x <= y)%Q -> (decimal_round x ndigits <= decimal_round y ndigits)%Q.
Proof.
  intros Hxy. unfold decimal_round. cbv zeta.
  pose proof (scale_pos ndigits) as Hs.
  apply Qmult_le_compat_r.
  - rewrite <- Zle_Qle. apply round_half_even_mono.
    apply Qmult_le_compat_r; [exact Hxy | by apply Qlt_le_weak].
  - apply Qlt_le_weak, Qinv_lt_0_compat, Hs.
Qed.

Lemma decimal_round_inject z ndigits : (decimal_round (inject_Z z) ndigits == inject_Z z)%Q.
Proof.
  unfold decimal_round. cbv zeta.
  pose proof (scale_pos ndigits) as Hs.
  rewrite (round_half_even_comp _ (inject_Z (z * 10 ^ Z.of_nat ndigits))).
  - rewrite round_half_even_inject, inject_Z_mult. field. lra.
  - rewrite inject_Z_mult. reflexivity.
Qed.

Lemma decimal_round_comp x y ndigits :
  (x == y)%Q -> decimal_round x ndigits = decimal_round y ndigits.
Proof.
  intros Hxy. unfold decimal_round. cbv zeta.
  rewrite (round_half_even_comp (x * _) (y * inject_Z (10 ^ Z.of_nat ndigits))).
  - reflexivity.
  - by rewrite Hxy.
Qed.

Lemma py_round_comp x y ndigits :
  (x == y)%Q -> py_round x ndigits = py_round y ndigits.
Proof.
  intros Hxy. unfold py_round. by rewrite (decimal_round_comp x y).
Qed.

Lemma py_round_mono x y ndigits :
  (0 <= x)%Q -> (x <= y)%Q -> (py_round x ndigits <= py_round y ndigits)%Q.
Proof.
  intros Hx Hxy. unfold py_round. apply double_mono.
  - rewrite <- (decimal_round_inject 0 ndigits). by apply decimal_round_mono.
  - by apply decimal_round_mono.
Qed.

Lemma py_round_inject z ndigits :
  (0 <= z <= 2 ^ 53)%Z -> (py_round (inject_Z z) ndigits == inject_Z z)%Q.
Proof.
  intros Hz. unfold py_round. rewrite decimal_round_inject. by apply double_inject.
Qed.

Lemma eval_bind {S A B : Type} (m : State S A) (k : A -> State S B) (s : S) :
  eval (bind m k) s = eval (k (eval m s)) (exec m s).
Proof.
  unfold eval, exec, bind. destruct (m s). reflexivity.
Qed.

Lemma exec_bind {S A B : Type} (m : State S A) (k : A -> State S B) (s : S) :
  exec (bind m k) s = exec (k (eval m s)) (exec m s).
Proof.
  unfold eval, exec, bind. destruct (m s). reflexivity.
Qed.

Lemma exec_for_each_app {S A : Type} (l1 l2 : list A) (body : A -> State S unit) (s : S) :
  exec (for_each (l1 ++ l2) body) s = exec (for_each l2 body) (exec (for_each l1 body) s).
Proof.
  revert s. induction l1 as [|x l1 IH]; intros s; [reflexivity|].
  cbn [app for_each]. rewrite !exec_bind. apply IH.
Qed.

(** ** Properties of linear_cache.py *)

Module linear_cache_facts.
Import linear_cache.

(** Unfolds the plumbing of the state monad. *)
Ltac run := unfold eval, exec, bind, ret, gets, modify, save_cache in *; cbn in *.

Definition sample_issue (i : string) (t : string) : Issue :=
  {| issue_id := Some i;
     issue_title := Some t;
     issue_description := None;
     issue_priority := Some 2%Z;
     issue_state_name := Some "Todo" |}.

(** *** The permanent tier *)

Lemma cache_issue_absent self issue_id issue_data now :
  permanent_cache_issues self !! issue_id = None ->
  exec (cache_issue issue_id issue_data now) self =
  set_permanent_cache_issues
    (<[issue_id := make_entry issue_id issue_data now]> (permanent_cache_issues self)) self.
Proof.
  intros Habsent. unfold cache_issue. run. rewrite Habsent. reflexivity.
Qed.

Lemma cache_issue_present self issue_id issue_data now :
  is_Some (permanent_cache_issues self !! issue_id) ->
  exec (cache_issue issue_id issue_data now) self = self.
Proof.
  intros [e He]. unfold cache_issue. run. rewrite He. reflexivity.
Qed.

Lemma cache_issue_cached self issue_id issue_data now :
  is_Some (permanent_cache_issues (exec (cache_issue issue_id issue_data now) self) !! issue_id).
Proof.
  destruct (permanent_cache_issues self !! issue_id) as [e|] eqn:Hlook.
  - rewrite cache_issue_present by eauto. eauto.
  - rewrite cache_issue_absent by done. cbn. rewrite lookup_insert_eq. eauto.
Qed.

Lemma cache_issue_keeps self issue_id issue_data now other :
  is_Some (permanent_cache_issues self !! other) ->
  permanent_cache_issues (exec (cache_issue issue_id issue_data now) self) !! other =
  permanent_cache_issues self !! other.
Proof.
  intros Hother.
  destruct (permanent_cache_issues self !! issue_id) as [e|] eqn:Hlook.
  - rewrite cache_issue_present by eauto. reflexivity.
  - rewrite cache_issue_absent by done. cbn.
    apply lookup_insert_ne. intros ->. rewrite Hlook in Hother. by destruct Hother.
Qed.

Lemma cache_issue_session self issue_id issue_data now :
  session_cache (exec (cache_issue issue_id issue_data now) self) = session_cache self.
Proof.
  destruct (permanent_cache_issues self !! issue_id) as [e|] eqn:Hlook.
  - rewrite cache_issue_present by eauto. reflexivity.
  - rewrite cache_issue_absent by done. reflexivity.
Qed.

Lemma cache_issue_again self issue_id A B t1 t2 :
  exec (cache_issue issue_id B t2) (exec (cache_issue issue_id A t1) self) =
  exec (cache_issue issue_id A t1) self.
Proof.
  apply cache_issue_present, cache_issue_cached.
Qed.

(** C1: the permanent tier is write-once.  When [issue_id] is not cached
    yet, [cache_issue issue_id A] followed by [cache_issue issue_id B] leaves
    [get_cached_issue issue_id] at the entry built from [A], and the second
    call changes nothing in the cache (whether or not [A] and [B] differ). *)
Theorem cache_issue_write_once self issue_id A B t1 t2 :
  permanent_cache_issues self !! issue_id = None ->
  let first := exec (cache_issue issue_id A t1) self in
  let second := exec (cache_issue issue_id B t2) first in
  eval (get_cached_issue issue_id) second = Some (make_entry issue_id A t1) /\
  second = first.
Proof.
  intros Habsent first second. subst second first.
  rewrite cache_issue_again. split; [|reflexivity].
  rewrite cache_issue_absent by done.
  unfold get_cached_issue. run. apply lookup_insert_eq.
Qed.

Lemma cache_issue_write_once_witness :
  eval (get_cached_issue "X")
    (exec (cache_issue "X" (sample_issue "X" "changed title") 7)
       (exec (cache_issue "X" (sample_issue "X" "first title") 3) (init None)))
  = Some (make_entry "X" (sample_issue "X" "first title") 3).
Proof.
  apply (cache_issue_write_once (init None) "X"
           (sample_issue "X" "first title") (sample_issue "X" "changed title") 3 7).
  reflexivity.
Defined.

(** *** The session tier *)

(** The loop of [cache_session_issues] writes to the permanent tier only. *)
Lemma populate_session (issues : list Issue) now self :
  session_cache
    (exec (for_each issues (fun issue =>
             match issue_id issue with
             | Some i => if truthy i then cache_issue i issue now else ret tt
             | None => ret tt
             end)) self)
  = session_cache self.
Proof.
  revert self. induction issues as [|issue issues IH]; intros self; [reflexivity|].
  cbn [for_each]. rewrite exec_bind, IH.
  destruct (issue_id issue) as [i|]; [|reflexivity].
  destruct (truthy i); [|reflexivity].
  apply cache_issue_session.
Qed.

Lemma cache_session_issues_session project_id (issues : list Issue) now self :
  session_cache (exec (cache_session_issues project_id issues now) self) =
  <[cache_key project_id := {| session_issues := issues; session_timestamp := now |}]>
    (session_cache self).
Proof.
  unfold cache_session_issues. rewrite exec_bind, populate_session. reflexivity.
Qed.

Lemma get_session_issues_pure project_id now self :
  exec (get_session_issues project_id now) self = self.
Proof.
  unfold get_session_issues. run.
  destruct (session_cache self !! cache_key project_id) as [d|]; [|reflexivity].
  destruct (Qltb _ _); reflexivity.
Qed.

Lemma get_session_issues_hit project_id now self items :
  eval (get_session_issues project_id now) self = Some items <->
  exists d, session_cache self !! cache_key project_id = Some d /\
            session_issues d = items /\
            (now - session_timestamp d < 300)%Q.
Proof.
  unfold get_session_issues. run.
  destruct (session_cache self !! cache_key project_id) as [d|]; cbn.
  - destruct (Qltb (now - session_timestamp d) 300) eqn:Hfresh; cbn.
    + apply Qltb_lt in Hfresh. split.
      * intros [= <-]. eauto.
      * intros (d' & [= <-] & <- & _). reflexivity.
    + apply Qltb_ge in Hfresh. split; [discriminate|].
      intros (d' & [= <-] & _ & Hlt). by apply Qle_not_lt in Hfresh.
  - split; [discriminate|]. intros (d' & [=] & _).
Qed.

Lemma get_session_issues_after_put project_id (items : list Issue) t now self :
  eval (get_session_issues project_id now)
    (exec (cache_session_issues project_id items t) self)
  = if Qltb (now - t) 300 then Some items else None.
Proof.
  unfold get_session_issues. rewrite eval_bind. unfold eval at 2, gets at 1. cbn [fst].
  rewrite cache_session_issues_session, lookup_insert_eq. cbn.
  destruct (Qltb (now - t) 300); reflexivity.
Qed.

Lemma invalidate_session_cache_session project_id self :
  session_cache (exec (invalidate_session_cache project_id) self) !! cache_key project_id = None.
Proof.
  unfold invalidate_session_cache. run.
  destruct (session_cache self !! cache_key project_id) as [d|] eqn:Hlook; cbn.
  - apply lookup_delete_eq.
  - exact Hlook.
Qed.

(** C2: [get_session_issues] returns the stored list exactly when the key
    has an entry whose timestamp is less than 300 seconds old, and [None]
    otherwise.  After [cache_session_issues] at time [t] it returns the same
    items while [now - t < 300] (in particular at [now = t]) and [None] once
    [now - t] has reached 300; after [invalidate_session_cache] it returns
    [None] at every time. *)
Theorem get_session_issues_freshness project_id now self :
  (forall items,
     eval (get_session_issues project_id now) self = Some items <->
     exists d, session_cache self !! cache_key project_id = Some d /\
               session_issues d = items /\
               (now - session_timestamp d < 300)%Q) /\
  (eval (get_session_issues project_id now) self = None <->
     forall d, session_cache self !! cache_key project_id = Some d ->
               (300 <= now - session_timestamp d)%Q) /\
  (forall items,
     eval (get_session_issues project_id now)
       (exec (cache_session_issues project_id items now) self) = Some items) /\
  (forall items t, (now - t < 300)%Q ->
     eval (get_session_issues project_id now)
       (exec (cache_session_issues project_id items t) self) = Some items) /\
  (forall items t, (300 <= now - t)%Q ->
     eval (get_session_issues project_id now)
       (exec (cache_session_issues project_id items t) self) = None) /\
  (forall items t,
     eval (get_session_issues project_id now)
       (exec (invalidate_session_cache project_id)
          (exec (cache_session_issues project_id items t) self)) = None) /\
  eval (get_session_issues project_id now)
    (exec (invalidate_session_cache project_id) self) = None.
Proof.
  assert (Hinv : forall c,
    eval (get_session_issues project_id now)
      (exec (invalidate_session_cache project_id) c) = None).
  { intros c. unfold get_session_issues. rewrite eval_bind.
    unfold eval at 2, gets at 1. cbn [fst].
    rewrite invalidate_session_cache_session. reflexivity. }
  split; [intros items; apply get_session_issues_hit|].
  split.
  { destruct (eval (get_session_issues project_id now) self) as [items|] eqn:Hget.
    - apply get_session_issues_hit in Hget as (d & Hd & _ & Hlt).
      split; [discriminate|]. intros Hall.
      apply Hall in Hd. by apply Qle_not_lt in Hd.
    - split; [|reflexivity]. intros _ d Hd.
      apply Qnot_lt_le. intros Hlt.
      assert (Hhit : eval (get_session_issues project_id now) self = Some (session_issues d)).
      { apply get_session_issues_hit. eauto. }
      congruence. }
  split.
  { intros items. rewrite get_session_issues_after_put.
    assert (Hnow : (now - now < 300)%Q).
    { assert (Hzero : (now - now == 0)%Q) by ring. rewrite Hzero. reflexivity. }
    apply Qltb_lt in Hnow. rewrite Hnow. reflexivity. }
  split.
  { intros items t Hlt. rewrite get_session_issues_after_put.
    apply Qltb_lt in Hlt. rewrite Hlt. reflexivity. }
  split.
  { intros items t Hge. rewrite get_session_issues_after_put.
    apply Qltb_ge in Hge. rewrite Hge. reflexivity. }
  split; [intros items t|]; apply Hinv.
Qed.

(** *** States reached through the methods *)

(** One call of a method of [LinearCache] or of [CachedLinearClient]. *)
Inductive call : LinearCache -> LinearCache -> Prop :=
| call_track_api_call self now :
    call self (exec (track_api_call now) self)
| call_get_cached_issue self issue_id :
    call self (exec (get_cached_issue issue_id) self)
| call_cache_issue self issue_id issue_data now :
    call self (exec (cache_issue issue_id issue_data now) self)
| call_get_session_issues self project_id now :
    call self (exec (get_session_issues project_id now) self)
| call_cache_session_issues self project_id issues now :
    call self (exec (cache_session_issues project_id issues now) self)
| call_invalidate_session_cache self project_id :
    call self (exec (invalidate_session_cache project_id) self)
| call_get_api_stats self :
    call self (exec get_api_stats self)
| call_list_issues self project_id status now :
    call self (exec (list_issues project_id status now) self)
| call_get_issue self issue_id now :
    call self (exec (get_issue issue_id now) self)
| call_update_issue self issue_id now :
    call self (exec (update_issue issue_id now) self)
| call_create_comment self issue_id body now :
    call self (exec (create_comment issue_id body now) self).

(** The states of a cache object: built by [init] (the only caller of
    [load_cache]), then used through the methods above. *)
Inductive reachable : LinearCache -> Prop :=
| reachable_init stored : reachable (init stored)
| reachable_call self self' : reachable self -> call self self' -> reachable self'.

(** Every issue of a session entry that has a non-empty id is in the
    permanent tier. *)
Definition session_items_cached (self : LinearCache) : Prop :=
  forall key d issue i,
    session_cache self !! key = Some d ->
    issue ∈ session_issues d ->
    issue_id issue = Some i ->
    truthy i = true ->
    is_Some (permanent_cache_issues self !! i).

Lemma track_api_call_tiers now self :
  session_cache (exec (track_api_call now) self) = session_cache self /\
  permanent_cache_issues (exec (track_api_call now) self) = permanent_cache_issues self.
Proof.
  unfold track_api_call. run. split; reflexivity.
Qed.

Lemma update_issue_exec issue_id now self :
  exec (update_issue issue_id now) self = exec (track_api_call now) self.
Proof.
  unfold update_issue. rewrite exec_bind. reflexivity.
Qed.

Lemma create_comment_exec issue_id body now self :
  exec (create_comment issue_id body now) self = exec (track_api_call now) self.
Proof.
  unfold create_comment. rewrite exec_bind. reflexivity.
Qed.

Lemma list_issues_exec project_id status now self :
  exec (list_issues project_id status now) self = self \/
  exec (list_issues project_id status now) self = exec (track_api_call now) self.
Proof.
  unfold list_issues. rewrite exec_bind, get_session_issues_pure.
  destruct (eval (get_session_issues project_id now) self) as [[|first rest]|].
  - right. rewrite exec_bind. reflexivity.
  - left. destruct status as [wanted|]; [destruct (truthy wanted)|]; reflexivity.
  - right. rewrite exec_bind. reflexivity.
Qed.

Lemma get_issue_exec issue_id now self :
  exec (get_issue issue_id now) self = self \/
  exec (get_issue issue_id now) self = exec (track_api_call now) self.
Proof.
  unfold get_issue. rewrite exec_bind.
  destruct (eval (get_cached_issue issue_id) self) as [entry|].
  - left. reflexivity.
  - right. rewrite exec_bind. reflexivity.
Qed.

Lemma cache_issue_grows self issue_id issue_data now other :
  is_Some (permanent_cache_issues self !! other) ->
  is_Some (permanent_cache_issues (exec (cache_issue issue_id issue_data now) self) !! other).
Proof.
  intros Hother. rewrite cache_issue_keeps; assumption.
Qed.

Lemma populate_grows (issues : list Issue) now self other :
  is_Some (permanent_cache_issues self !! other) ->
  is_Some (permanent_cache_issues
    (exec (for_each issues (fun issue =>
             match issue_id issue with
             | Some i => if truthy i then cache_issue i issue now else ret tt
             | None => ret tt
             end)) self) !! other).
Proof.
  revert self. induction issues as [|issue issues IH]; intros self Hother; [exact Hother|].
  cbn [for_each]. rewrite exec_bind. apply IH.
  destruct (issue_id issue) as [i|]; [|exact Hother].
  destruct (truthy i); [|exact Hother].
  by apply cache_issue_grows.
Qed.

Lemma populate_caches (issues : list Issue) now self issue i :
  issue ∈ issues ->
  issue_id issue = Some i ->
  truthy i = true ->
  is_Some (permanent_cache_issues
    (exec (for_each issues (fun issue =>
             match issue_id issue with
             | Some i => if truthy i then cache_issue i issue now else ret tt
             | None => ret tt
             end)) self) !! i).
Proof.
  revert self. induction issues as [|first issues IH]; intros self Hin Hid Htruthy.
  - by apply elem_of_nil in Hin.
  - cbn [for_each]. rewrite exec_bind.
    apply elem_of_cons in Hin as [<- | Hin].
    + apply populate_grows. rewrite Hid, Htruthy. apply cache_issue_cached.
    + by apply IH.
Qed.

Lemma call_session_items_cached self self' :
  call self self' -> session_items_cached self -> session_items_cached self'.
Proof.
  intros Hcall Hinv.
  destruct Hcall as
    [ self now | self iid | self iid issue_data now | self project_id now
    | self project_id issues now | self project_id | self
    | self project_id status now | self iid now | self iid now | self iid body now ].
  - destruct (track_api_call_tiers now self) as [Hs Hp].
    intros key d issue i. rewrite Hs, Hp. apply Hinv.
  - exact Hinv.
  - intros key d issue i. rewrite cache_issue_session. intros Hd Hin Hid Ht.
    apply cache_issue_grows. by eapply Hinv.
  - rewrite get_session_issues_pure. exact Hinv.
  - intros key d issue i. rewrite cache_session_issues_session.
    unfold cache_session_issues. rewrite exec_bind.
    destruct (decide (key = cache_key project_id)) as [-> | Hne].
    + rewrite lookup_insert_eq. intros [= <-]. cbn [session_issues].
      intros Hin Hid Ht. by eapply populate_caches.
    + rewrite lookup_insert_ne by done. intros Hd Hin Hid Ht.
      apply populate_grows. run. by eapply Hinv.
  - unfold invalidate_session_cache. run.
    destruct (session_cache self !! cache_key project_id) as [d0|]; cbn; [|exact Hinv].
    intros key d issue i Hd. cbn in Hd. apply lookup_delete_Some in Hd as [_ Hd].
    by eapply Hinv.
  - exact Hinv.
  - destruct (list_issues_exec project_id status now self) as [-> | ->]; [exact Hinv|].
    destruct (track_api_call_tiers now self) as [Hs Hp].
    intros key d issue i. rewrite Hs, Hp. apply Hinv.
  - destruct (get_issue_exec iid now self) as [-> | ->]; [exact Hinv|].
    destruct (track_api_call_tiers now self) as [Hs Hp].
    intros key d issue i. rewrite Hs, Hp. apply Hinv.
  - rewrite update_issue_exec.
    destruct (track_api_call_tiers now self) as [Hs Hp].
    intros key d issue i. rewrite Hs, Hp. apply Hinv.
  - rewrite create_comment_exec.
    destruct (track_api_call_tiers now self) as [Hs Hp].
    intros key d issue i. rewrite Hs, Hp. apply Hinv.
Qed.

Lemma reachable_session_items_cached self :
  reachable self -> session_items_cached self.
Proof.
  induction 1 as [stored | self self' _ IH Hcall].
  - intros key d issue i Hd. cbn in Hd. by rewrite lookup_empty in Hd.
  - by eapply call_session_items_cached.
Qed.

Definition unnamed_issue : Issue :=
  {| issue_id := Some "";
     issue_title := Some "draft";
     issue_description := None;
     issue_priority := None;
     issue_state_name := Some "Todo" |}.

(** C3, as stated, fails: after [cache_session_issues "P"] of a list whose
    issue has the empty id, [get_session_issues "P"] hits and returns that
    list, yet the id of the returned issue is not in the permanent tier
    afterwards. *)
Lemma get_session_issues_no_trickle :
  let self := exec (cache_session_issues "P" [unnamed_issue] 0) (init None) in
  eval (get_session_issues "P" 1) self = Some [unnamed_issue] /\
  issue_id unnamed_issue = Some "" /\
  eval (get_cached_issue "") (exec (get_session_issues "P" 1) self) = None.
Proof.
  vm_compute. repeat split.
Qed.

(** C3, amended: [get_session_issues] changes nothing in the cache; the
    permanent tier is filled by [cache_session_issues] when the list is
    stored, for the issues with a non-empty id.  So on every state reached
    through the methods, after a hit every non-empty issue id of the
    returned list is in the permanent tier. *)
Theorem get_session_issues_hit_cached self project_id now items :
  reachable self ->
  eval (get_session_issues project_id now) self = Some items ->
  exec (get_session_issues project_id now) self = self /\
  forall issue i,
    issue ∈ items -> issue_id issue = Some i -> i <> "" ->
    is_Some (eval (get_cached_issue i) (exec (get_session_issues project_id now) self)).
Proof.
  intros Hreach Hhit. split; [apply get_session_issues_pure|].
  intros issue i Hin Hid Hne. rewrite get_session_issues_pure.
  apply get_session_issues_hit in Hhit as (d & Hd & <- & _).
  apply (reachable_session_items_cached self Hreach _ d issue i Hd Hin Hid).
  destruct i; [congruence | reflexivity].
Qed.

Lemma get_session_issues_hit_cached_witness :
  is_Some (eval (get_cached_issue "X")
    (exec (get_session_issues "P" 1)
       (exec (cache_session_issues "P" [sample_issue "X" "first title"] 0) (init None)))).
Proof.
  refine (proj2 (get_session_issues_hit_cached
            (exec (cache_session_issues "P" [sample_issue "X" "first title"] 0) (init None))
            "P" 1 [sample_issue "X" "first title"] _ _)
          (sample_issue "X" "first title") "X" _ _ _).
  - eapply reachable_call; [apply (reachable_init None) | apply call_cache_session_issues].
  - vm_compute. reflexivity.
  - constructor.
  - reflexivity.
  - discriminate.
Defined.

(** *** The rate window *)

(** [track_api_call] prunes: what it leaves in the window is strictly less
    than 3600 seconds old, and it returns the size of the window. *)
Lemma track_api_call_window now self :
  Forall (fun t => (now - 3600 < t)%Q) (api_call_timestamps (exec (track_api_call now) self)) /\
  eval (track_api_call now) self = length (api_call_timestamps (exec (track_api_call now) self)).
Proof.
  unfold track_api_call. run. split; [|reflexivity].
  apply List.Forall_forall. intros t Hin.
  apply List.filter_In in Hin as [_ Hlt]. by apply Qltb_lt.
Qed.

(** [get_api_stats] reads the window as the last [track_api_call] left it:
    it takes no reading of the clock and prunes nothing. *)
Lemma get_api_stats_window self :
  calls_last_hour (eval get_api_stats self) = length (api_call_timestamps self) /\
  exec get_api_stats self = self.
Proof.
  unfold get_api_stats. run. split; reflexivity.
Qed.

(** C7 fails for [get_api_stats]: one call is recorded at time 0; read at
    time 4000, no recorded call is within the last 3600 seconds, but
    [get_api_stats] still reports [calls_last_hour = 1] and leaves the old
    timestamp in the window. *)
Theorem get_api_stats_counts_expired_calls :
  let self := exec (track_api_call 0) (init None) in
  let now := 4000%Q in
  List.filter (fun t => Qltb (now - 3600) t) (api_call_timestamps self) = [] /\
  calls_last_hour (eval get_api_stats self) = 1%nat /\
  api_call_timestamps (exec get_api_stats self) = [0%Q].
Proof.
  vm_compute. repeat split.
Qed.

(** *** CachedLinearClient.update_issue *)

Lemma update_issue_session issue_id now self :
  session_cache (exec (update_issue issue_id now) self) = session_cache self.
Proof.
  rewrite update_issue_exec. apply track_api_call_tiers.
Qed.

(** C8 fails: [update_issue] records the call and does not touch the
    session tier, so the list cached for "P" before the update is still
    returned after it. *)
Theorem update_issue_keeps_session_entry :
  let cached := exec (cache_session_issues "P" [sample_issue "X" "first title"] 0) (init None) in
  let updated := exec (update_issue "X" 1) cached in
  session_cache updated = session_cache cached /\
  eval (get_session_issues "P" 2) updated = Some [sample_issue "X" "first title"].
Proof.
  cbv zeta. split.
  - apply update_issue_session.
  - vm_compute. reflexivity.
Qed.

(** *** More on the rate window *)

Definition counters (self : LinearCache) : Z * list Q :=
  (api_call_count self, api_call_timestamps self).

Lemma cache_issue_counters self issue_id issue_data now :
  counters (exec (cache_issue issue_id issue_data now) self) = counters self.
Proof.
  destruct (permanent_cache_issues self !! issue_id) as [e|] eqn:Hlook.
  - rewrite cache_issue_present by eauto. reflexivity.
  - rewrite cache_issue_absent by done. reflexivity.
Qed.

Lemma populate_counters (issues : list Issue) now self :
  counters
    (exec (for_each issues (fun issue =>
             match issue_id issue with
             | Some i => if truthy i then cache_issue i issue now else ret tt
             | None => ret tt
             end)) self)
  = counters self.
Proof.
  revert self. induction issues as [|issue issues IH]; intros self; [reflexivity|].
  cbn [for_each]. rewrite exec_bind, IH.
  destruct (issue_id issue) as [i|]; [|reflexivity].
  destruct (truthy i); [|reflexivity].
  apply cache_issue_counters.
Qed.

Lemma cache_session_issues_counters project_id (issues : list Issue) now self :
  counters (exec (cache_session_issues project_id issues now) self) = counters self.
Proof.
  unfold cache_session_issues. rewrite exec_bind, populate_counters. reflexivity.
Qed.

Lemma invalidate_session_cache_counters project_id self :
  counters (exec (invalidate_session_cache project_id) self) = counters self.
Proof.
  unfold invalidate_session_cache. run.
  destruct (session_cache self !! cache_key project_id); reflexivity.
Qed.

Lemma track_api_call_timestamps now self :
  api_call_timestamps (exec (track_api_call now) self) =
  List.filter (fun t => Qltb (now - 3600) t) (api_call_timestamps self) ++ [now].
Proof.
  unfold track_api_call. run. rewrite List.filter_app. cbn [List.filter].
  assert (Hnow : Qltb (now - 3600) now = true) by (apply Qltb_lt; lra).
  rewrite Hnow. reflexivity.
Qed.

Lemma track_api_call_count now self :
  api_call_count (exec (track_api_call now) self) = (api_call_count self + 1)%Z.
Proof.
  reflexivity.
Qed.

Lemma filter_all_kept (keep : Q -> bool) (l : list Q) :
  Forall (fun t => keep t = true) l -> List.filter keep l = l.
Proof.
  induction 1 as [|t l Ht _ IH]; [reflexivity|].
  cbn. rewrite Ht, IH. reflexivity.
Qed.

(** X1: [track_api_call] always keeps the call it records: the new window
    is the old one without the calls that are 3600 seconds old or older,
    followed by [now]; the value returned is the size of that window, so it
    is at least 1; the session counter grows by one and the two cache tiers
    are not touched. *)
Theorem track_api_call_records now self :
  let self' := exec (track_api_call now) self in
  api_call_timestamps self' =
    List.filter (fun t => Qltb (now - 3600) t) (api_call_timestamps self) ++ [now] /\
  Forall (fun t => (now - 3600 < t)%Q) (api_call_timestamps self') /\
  eval (track_api_call now) self = length (api_call_timestamps self') /\
  (1 <= eval (track_api_call now) self)%nat /\
  api_call_count self' = (api_call_count self + 1)%Z /\
  session_cache self' = session_cache self /\
  permanent_cache_issues self' = permanent_cache_issues self.
Proof.
  cbv zeta. destruct (track_api_call_window now self) as [Hwindow Hcount].
  destruct (track_api_call_tiers now self) as [Hs Hp].
  repeat split; try assumption.
  - apply track_api_call_timestamps.
  - rewrite Hcount, track_api_call_timestamps, List.length_app. cbn. lia.
Qed.

(** The calls of a caller that reaches the API at each of [times]. *)
Definition track_calls (times : list Q) : State LinearCache unit :=
  for_each times (fun t => track_api_call t ;; ret tt).

Lemma track_calls_snoc_window (horizon : Q) (times : list Q) self :
  Forall (fun t => (horizon - 3600 < t)%Q /\ (t <= horizon)%Q) (api_call_timestamps self) ->
  Forall (fun t => (horizon - 3600 < t)%Q /\ (t <= horizon)%Q) times ->
  api_call_timestamps (exec (track_calls times) self) = api_call_timestamps self ++ times /\
  api_call_count (exec (track_calls times) self) =
    (api_call_count self + Z.of_nat (length times))%Z.
Proof.
  intros Hold Htimes. revert self Hold.
  induction Htimes as [|t times [Hlow Hhigh] Htimes IH]; intros self Hold.
  - cbn. rewrite app_nil_r. split; [reflexivity | lia].
  - unfold track_calls. cbn [for_each]. rewrite exec_bind, exec_bind.
    change (exec (ret tt) ?s) with s.
    assert (Hstep : api_call_timestamps (exec (track_api_call t) self) =
                    api_call_timestamps self ++ [t]).
    { rewrite track_api_call_timestamps. f_equal. apply filter_all_kept.
      eapply Forall_impl; [exact Hold|]. intros t' [Hlow' _]. cbn.
      apply Qltb_lt. lra. }
    destruct (IH (exec (track_api_call t) self)) as [Hts Hcount].
    { rewrite Hstep. apply Forall_app. split; [exact Hold|].
      constructor; [split; assumption | constructor]. }
    unfold track_calls in Hts, Hcount. rewrite Hts, Hcount, Hstep, track_api_call_count.
    rewrite <- app_assoc. split; [reflexivity|]. cbn [length]. lia.
Qed.

(** X2: calls that all fall within one span of less than 3600 seconds are
    all kept: when every recorded time and every new time [t] satisfies
    [horizon - 3600 < t <= horizon], recording the new times one after the
    other appends them to the window, and [get_api_stats] then reports as
    many [calls_last_hour] as there are calls, in whatever order the times
    come. *)
Theorem track_calls_within_hour (horizon : Q) (times : list Q) self :
  Forall (fun t => (horizon - 3600 < t)%Q /\ (t <= horizon)%Q) (api_call_timestamps self) ->
  Forall (fun t => (horizon - 3600 < t)%Q /\ (t <= horizon)%Q) times ->
  let self' := exec (track_calls times) self in
  api_call_timestamps self' = api_call_timestamps self ++ times /\
  calls_last_hour (eval get_api_stats self') =
    (length (api_call_timestamps self) + length times)%nat /\
  total_calls_session (eval get_api_stats self') =
    (api_call_count self + Z.of_nat (length times))%Z.
Proof.
  intros Hold Htimes self'. subst self'.
  destruct (track_calls_snoc_window horizon times self Hold Htimes) as [Hts Hcount].
  split; [exact Hts|]. split.
  - rewrite (proj1 (get_api_stats_window _)), Hts. apply List.length_app.
  - unfold get_api_stats. run. exact Hcount.
Qed.

Lemma track_calls_within_hour_witness :
  calls_last_hour (eval get_api_stats (exec (track_calls [10; 3000; 20; 3500]%Q) (init None)))
  = 4%nat.
Proof.
  refine (proj1 (proj2 (track_calls_within_hour 3500 [10; 3000; 20; 3500]%Q (init None) _ _))).
  - constructor.
  - repeat constructor; vm_compute; congruence.
Defined.

(** X3: on every state reached through the methods, the rate window is no
    longer than the number of calls of the session: [calls_last_hour] never
    exceeds [total_calls_session]. *)
Theorem reachable_window_bounded self :
  reachable self ->
  (Z.of_nat (calls_last_hour (eval get_api_stats self)) <=
   total_calls_session (eval get_api_stats self))%Z.
Proof.
  intros Hreach.
  assert (Hgoal : (Z.of_nat (length (api_call_timestamps self)) <= api_call_count self)%Z).
  { induction Hreach as [stored | self self' _ IH Hcall]; [cbn; lia|].
    assert (Htrack : forall now,
      (Z.of_nat (length (api_call_timestamps (exec (track_api_call now) self)))
       <= api_call_count (exec (track_api_call now) self))%Z).
    { intros now. rewrite track_api_call_timestamps, track_api_call_count, List.length_app.
      pose proof (List.filter_length_le (fun t => Qltb (now - 3600) t) (api_call_timestamps self)).
      cbn [length]. lia. }
    destruct Hcall as
      [ self now | self iid | self iid issue_data now | self project_id now
      | self project_id issues now | self project_id | self
      | self project_id status now | self iid now | self iid now | self iid body now ].
    - apply Htrack.
    - exact IH.
    - pose proof (cache_issue_counters self iid issue_data now) as [= -> ->]. exact IH.
    - rewrite get_session_issues_pure. exact IH.
    - pose proof (cache_session_issues_counters project_id issues now self) as [= -> ->]. exact IH.
    - pose proof (invalidate_session_cache_counters project_id self) as [= -> ->]. exact IH.
    - exact IH.
    - destruct (list_issues_exec project_id status now self) as [-> | ->]; [exact IH | apply Htrack].
    - destruct (get_issue_exec iid now self) as [-> | ->]; [exact IH | apply Htrack].
    - rewrite update_issue_exec. apply Htrack.
    - rewrite create_comment_exec. apply Htrack. }
  unfold get_api_stats. run. exact Hgoal.
Qed.

Lemma reachable_window_bounded_witness :
  (Z.of_nat (calls_last_hour (eval get_api_stats (exec (update_issue "X" 5000) (exec (track_api_call 0) (init None)))))
   <= total_calls_session (eval get_api_stats (exec (update_issue "X" 5000) (exec (track_api_call 0) (init None)))))%Z.
Proof.
  apply reachable_window_bounded.
  eapply reachable_call; [|apply call_update_issue].
  eapply reachable_call; [|apply call_track_api_call].
  apply (reachable_init None).
Defined.

(** *** More on the two tiers *)

Lemma populate_keeps (issues : list Issue) now self other :
  is_Some (permanent_cache_issues self !! other) ->
  permanent_cache_issues
    (exec (for_each issues (fun issue =>
             match issue_id issue with
             | Some i => if truthy i then cache_issue i issue now else ret tt
             | None => ret tt
             end)) self) !! other
  = permanent_cache_issues self !! other.
Proof.
  revert self. induction issues as [|issue issues IH]; intros self Hother; [reflexivity|].
  cbn [for_each]. rewrite exec_bind.
  destruct (issue_id issue) as [i|]; [|by apply IH].
  destruct (truthy i); [|by apply IH].
  rewrite IH by (by apply cache_issue_grows). by apply cache_issue_keeps.
Qed.

Lemma cache_session_issues_keeps project_id (issues : list Issue) now self other :
  is_Some (permanent_cache_issues self !! other) ->
  permanent_cache_issues (exec (cache_session_issues project_id issues now) self) !! other
  = permanent_cache_issues self !! other.
Proof.
  intros Hother. unfold cache_session_issues. rewrite exec_bind.
  by rewrite populate_keeps.
Qed.

Lemma invalidate_session_cache_permanent project_id self :
  permanent_cache_issues (exec (invalidate_session_cache project_id) self) =
  permanent_cache_issues self.
Proof.
  unfold invalidate_session_cache. run.
  destruct (session_cache self !! cache_key project_id); reflexivity.
Qed.

Lemma call_permanent_keeps self self' i e :
  call self self' ->
  permanent_cache_issues self !! i = Some e ->
  permanent_cache_issues self' !! i = Some e.
Proof.
  intros Hcall Hi.
  assert (Htrack : forall now,
    permanent_cache_issues (exec (track_api_call now) self) !! i = Some e).
  { intros now. by rewrite (proj2 (track_api_call_tiers now self)). }
  destruct Hcall as
    [ self now | self iid | self iid issue_data now | self project_id now
    | self project_id issues now | self project_id | self
    | self project_id status now | self iid now | self iid now | self iid body now ].
  - apply Htrack.
  - exact Hi.
  - rewrite cache_issue_keeps by eauto. exact Hi.
  - rewrite get_session_issues_pure. exact Hi.
  - rewrite cache_session_issues_keeps by eauto. exact Hi.
  - rewrite invalidate_session_cache_permanent. exact Hi.
  - exact Hi.
  - destruct (list_issues_exec project_id status now self) as [-> | ->]; [exact Hi | apply Htrack].
  - destruct (get_issue_exec iid now self) as [-> | ->]; [exact Hi | apply Htrack].
  - rewrite update_issue_exec. apply Htrack.
  - rewrite create_comment_exec. apply Htrack.
Qed.

(** X4: no method changes or removes an entry of the permanent tier: an
    entry cached for an id is still what [get_cached_issue] returns after
    any sequence of calls of the methods of the cache and of the client. *)
Theorem permanent_entry_kept self self' i e :
  rtc call self self' ->
  eval (get_cached_issue i) self = Some e ->
  eval (get_cached_issue i) self' = Some e.
Proof.
  unfold get_cached_issue. run.
  induction 1 as [self | self mid self' Hcall _ IH]; [done|].
  intros Hi. apply IH. by eapply call_permanent_keeps.
Qed.

Lemma permanent_entry_kept_witness :
  eval (get_cached_issue "X")
    (exec (invalidate_session_cache "P")
       (exec (cache_session_issues "P" [sample_issue "X" "changed title"] 9)
          (exec (cache_issue "X" (sample_issue "X" "first title") 3) (init None))))
  = Some (make_entry "X" (sample_issue "X" "first title") 3).
Proof.
  apply (permanent_entry_kept
           (exec (cache_issue "X" (sample_issue "X" "first title") 3) (init None))).
  - eapply rtc_l; [apply call_cache_session_issues|].
    eapply rtc_l; [apply call_invalidate_session_cache|].
    apply rtc_refl.
  - reflexivity.
Defined.

Lemma populate_skips (issues : list Issue) now self i :
  Forall (fun issue => issue_id issue <> Some i) issues ->
  permanent_cache_issues
    (exec (for_each issues (fun issue =>
             match issue_id issue with
             | Some i => if truthy i then cache_issue i issue now else ret tt
             | None => ret tt
             end)) self) !! i
  = permanent_cache_issues self !! i.
Proof.
  intros Hnone. revert self.
  induction Hnone as [|issue issues Hne _ IH]; intros self; [reflexivity|].
  cbn [for_each]. rewrite exec_bind, IH.
  destruct (issue_id issue) as [j|]; [|reflexivity].
  destruct (truthy j); [|reflexivity].
  destruct (permanent_cache_issues self !! j) as [e|] eqn:Hlook.
  - rewrite cache_issue_present by eauto. reflexivity.
  - rewrite cache_issue_absent by done. cbn.
    apply lookup_insert_ne. congruence.
Qed.

(** X5: what [cache_session_issues] writes to the permanent tier.  Every
    issue of the list with a non-empty id is cached afterwards; an id that
    was cached before keeps its entry; and an id that was not cached gets
    the entry built from the first issue of the list that carries it, later
    issues with the same id being ignored. *)
Theorem cache_session_issues_permanent project_id (issues : list Issue) now self :
  let self' := exec (cache_session_issues project_id issues now) self in
  (forall issue i, issue ∈ issues -> issue_id issue = Some i -> i <> "" ->
     is_Some (eval (get_cached_issue i) self')) /\
  (forall i e, eval (get_cached_issue i) self = Some e ->
     eval (get_cached_issue i) self' = Some e) /\
  (forall before issue after i,
     issues = before ++ issue :: after ->
     Forall (fun earlier => issue_id earlier <> Some i) before ->
     issue_id issue = Some i -> i <> "" ->
     eval (get_cached_issue i) self = None ->
     eval (get_cached_issue i) self' = Some (make_entry i issue now)).
Proof.
  cbv zeta. unfold get_cached_issue, eval, gets. cbn [fst]. repeat split.
  - intros issue i Hin Hid Hne. unfold cache_session_issues. rewrite exec_bind.
    eapply populate_caches; [exact Hin | exact Hid |].
    destruct i; [congruence | reflexivity].
  - intros i e Hi. rewrite cache_session_issues_keeps by eauto. exact Hi.
  - intros before issue after i -> Hbefore Hid Hne Hi.
    unfold cache_session_issues. rewrite exec_bind.
    set (start := exec (modify _) self).
    assert (Hstart : permanent_cache_issues start !! i = None) by exact Hi.
    clearbody start.
    rewrite exec_for_each_app. cbn [for_each]. rewrite exec_bind.
    rewrite populate_keeps.
    + rewrite Hid. destruct i; [congruence|]. cbn [truthy].
      rewrite cache_issue_absent by (by rewrite populate_skips).
      cbn. apply lookup_insert_eq.
    + rewrite Hid. destruct i; [congruence|]. cbn [truthy]. apply cache_issue_cached.
Qed.

(** X6: the session tier keeps the last list stored for a key while the
    permanent tier keeps the first entry seen for an id: after two calls of
    [cache_session_issues] for the same project, the first with an issue
    [A] and the second with a list holding an issue [B] of the same id, a
    fresh [get_session_issues] returns the second list, and
    [get_cached_issue] still returns the entry built from [A]. *)
Theorem session_last_permanent_first project_id A rest (newer : list Issue) i t1 t2 now self :
  issue_id A = Some i ->
  i <> "" ->
  eval (get_cached_issue i) self = None ->
  (now - t2 < 300)%Q ->
  let self' :=
    exec (cache_session_issues project_id newer t2)
      (exec (cache_session_issues project_id (A :: rest) t1) self) in
  eval (get_session_issues project_id now) self' = Some newer /\
  eval (get_cached_issue i) self' = Some (make_entry i A t1).
Proof.
  intros Hid Hne Hi Hfresh self'. subst self'. split.
  - rewrite get_session_issues_after_put. apply Qltb_lt in Hfresh. by rewrite Hfresh.
  - unfold get_cached_issue, eval, gets in *. cbn [fst] in *.
    assert (Hfirst : permanent_cache_issues
              (exec (cache_session_issues project_id (A :: rest) t1) self) !! i
            = Some (make_entry i A t1)).
    { unfold cache_session_issues. rewrite exec_bind. cbn [for_each]. rewrite exec_bind.
      rewrite Hid. destruct i; [congruence|]. cbn [truthy].
      rewrite populate_keeps by apply cache_issue_cached.
      rewrite cache_issue_absent by exact Hi. cbn. apply lookup_insert_eq. }
    rewrite cache_session_issues_keeps by eauto. exact Hfirst.
Qed.

Lemma session_last_permanent_first_witness :
  eval (get_session_issues "P" 20)
    (exec (cache_session_issues "P" [sample_issue "X" "changed title"] 15)
       (exec (cache_session_issues "P" [sample_issue "X" "first title"] 3) (init None)))
  = Some [sample_issue "X" "changed title"] /\
  eval (get_cached_issue "X")
    (exec (cache_session_issues "P" [sample_issue "X" "changed title"] 15)
       (exec (cache_session_issues "P" [sample_issue "X" "first title"] 3) (init None)))
  = Some (make_entry "X" (sample_issue "X" "first title") 3).
Proof.
  apply (session_last_permanent_first "P" (sample_issue "X" "first title") []
           [sample_issue "X" "changed title"] "X" 3 15 20 (init None)).
  - reflexivity.
  - discriminate.
  - reflexivity.
  - reflexivity.
Defined.

Lemma cache_key_inj project_id other :
  cache_key project_id = cache_key other -> project_id = other.
Proof.
  unfold cache_key. intros Heq. simpl in Heq. by injection Heq.
Qed.

Lemma get_session_issues_lookup project_id now (a b : LinearCache) :
  session_cache a !! cache_key project_id = session_cache b !! cache_key project_id ->
  eval (get_session_issues project_id now) a = eval (get_session_issues project_id now) b.
Proof.
  intros Hsame.
  assert (Heval : forall c,
    eval (get_session_issues project_id now) c =
    match session_cache c !! cache_key project_id with
    | Some d => if Qltb (now - session_timestamp d) 300 then Some (session_issues d) else None
    | None => None
    end).
  { intros c. unfold get_session_issues. run.
    destruct (session_cache c !! cache_key project_id) as [d|]; [|reflexivity].
    destruct (Qltb _ _); reflexivity. }
  by rewrite !Heval, Hsame.
Qed.

(** X7: the entries of the session tier are independent: storing a list
    for a project, or invalidating a project, does not change what
    [get_session_issues] returns for another project. *)
Theorem session_keys_independent project_id other (items : list Issue) t now self :
  project_id <> other ->
  eval (get_session_issues other now) (exec (cache_session_issues project_id items t) self)
    = eval (get_session_issues other now) self /\
  eval (get_session_issues other now) (exec (invalidate_session_cache project_id) self)
    = eval (get_session_issues other now) self.
Proof.
  intros Hne.
  assert (Hkey : cache_key project_id <> cache_key other).
  { intros Heq. by apply cache_key_inj in Heq. }
  split; apply get_session_issues_lookup.
  - rewrite cache_session_issues_session. by apply lookup_insert_ne.
  - unfold invalidate_session_cache. run.
    destruct (session_cache self !! cache_key project_id); cbn; [|reflexivity].
    by apply lookup_delete_ne.
Qed.

Lemma session_keys_independent_witness :
  eval (get_session_issues "Q" 20)
    (exec (invalidate_session_cache "P")
       (exec (cache_session_issues "Q" [sample_issue "X" "first title"] 3) (init None)))
  = eval (get_session_issues "Q" 20)
      (exec (cache_session_issues "Q" [sample_issue "X" "first title"] 3) (init None)).
Proof.
  refine (proj2 (session_keys_independent "P" "Q" [] 0 20
                   (exec (cache_session_issues "Q" [sample_issue "X" "first title"] 3) (init None))
                   _)).
  discriminate.
Defined.

(** X8: [invalidate_session_cache] removes the entry of its project and
    nothing else: the session tier loses that key only, the permanent tier
    and the call counters are as before, a second invalidation changes
    nothing, and invalidating a project that has no entry leaves the whole
    cache as it is. *)
Theorem invalidate_session_cache_effect project_id self :
  let self' := exec (invalidate_session_cache project_id) self in
  session_cache self' = delete (cache_key project_id) (session_cache self) /\
  permanent_cache_issues self' = permanent_cache_issues self /\
  counters self' = counters self /\
  exec (invalidate_session_cache project_id) self' = self' /\
  (session_cache self !! cache_key project_id = None -> self' = self).
Proof.
  cbv zeta.
  assert (Habsent : forall c, session_cache c !! cache_key project_id = None ->
            exec (invalidate_session_cache project_id) c = c).
  { intros c Hnone. unfold invalidate_session_cache. run. by rewrite Hnone. }
  split; [|split; [|split; [|split]]].
  - unfold invalidate_session_cache. run.
    destruct (session_cache self !! cache_key project_id) eqn:Hlook; cbn; [reflexivity|].
    symmetry. by apply delete_id.
  - apply invalidate_session_cache_permanent.
  - apply invalidate_session_cache_counters.
  - apply Habsent, invalidate_session_cache_session.
  - apply Habsent.
Qed.

(** *** More on CachedLinearClient *)

(** X9: [list_issues] without a status filter.  When the session tier holds
    a fresh, non-empty list for the project, that list is returned and the
    cache is left as it is (no API call is recorded).  When
    [get_session_issues] misses, and also when the fresh cached list is
    empty, it returns the empty list and records one API call, the two
    tiers staying as they are. *)
Theorem list_issues_hit_or_miss project_id status now self :
  (forall first rest,
     eval (get_session_issues project_id now) self = Some (first :: rest) ->
     eval (list_issues project_id None now) self = first :: rest /\
     exec (list_issues project_id status now) self = self) /\
  (eval (get_session_issues project_id now) self = None \/
   eval (get_session_issues project_id now) self = Some [] ->
     eval (list_issues project_id status now) self = [] /\
     api_call_count (exec (list_issues project_id status now) self) = (api_call_count self + 1)%Z /\
     session_cache (exec (list_issues project_id status now) self) = session_cache self /\
     permanent_cache_issues (exec (list_issues project_id status now) self)
       = permanent_cache_issues self).
Proof.
  split.
  - intros first rest Hhit. unfold list_issues.
    rewrite eval_bind, exec_bind, get_session_issues_pure, Hhit.
    split; [reflexivity|].
    destruct status as [wanted|]; [destruct (truthy wanted)|]; reflexivity.
  - intros Hmiss.
    assert (Hexec : exec (list_issues project_id status now) self = exec (track_api_call now) self).
    { unfold list_issues. rewrite exec_bind, get_session_issues_pure.
      destruct Hmiss as [-> | ->]; rewrite exec_bind; reflexivity. }
    rewrite Hexec. destruct (track_api_call_tiers now self) as [Hs Hp].
    split; [|by repeat split].
    unfold list_issues. rewrite eval_bind, get_session_issues_pure.
    destruct Hmiss as [-> | ->]; rewrite eval_bind; reflexivity.
Qed.

(** X10: [list_issues] with a status filter.  On a fresh, non-empty cached
    list and a non-empty status, it returns the cached issues whose state
    name is that status, in their cached order, and leaves the cache as it
    is; the empty status string filters nothing. *)
Theorem list_issues_filtered project_id wanted now self first rest :
  eval (get_session_issues project_id now) self = Some (first :: rest) ->
  let found := eval (list_issues project_id (Some wanted) now) self in
  (wanted <> "" ->
     Forall (fun issue => issue_state_name issue = Some wanted) found /\
     sublist found (first :: rest) /\
     (forall issue, issue ∈ first :: rest -> issue_state_name issue = Some wanted -> issue ∈ found)) /\
  (wanted = "" -> found = first :: rest) /\
  exec (list_issues project_id (Some wanted) now) self = self.
Proof.
  intros Hhit found. subst found. unfold list_issues.
  rewrite eval_bind, exec_bind, get_session_issues_pure, Hhit.
  split; [|split].
  - intros Hne. destruct wanted; [congruence|]. cbn [truthy].
    change (eval (ret ?v) _) with v.
    split; [|split].
    + apply List.Forall_forall. intros issue Hin.
      apply List.filter_In in Hin as [_ Hstate]. by apply bool_decide_eq_true in Hstate.
    + generalize (first :: rest). intros l.
      induction l as [|x l IH]; [constructor|].
      cbn. destruct (bool_decide _); by constructor.
    + intros issue Hin Hstate. apply list_elem_of_In. apply List.filter_In.
      split; [by apply list_elem_of_In | by apply bool_decide_eq_true].
  - intros ->. reflexivity.
  - destruct (truthy wanted); reflexivity.
Qed.

Lemma list_issues_filtered_witness :
  Forall (fun issue => issue_state_name issue = Some "Todo")
    (eval (list_issues "P" (Some "Todo") 5)
       (exec (cache_session_issues "P" [sample_issue "X" "first title"] 3) (init None))).
Proof.
  refine (proj1 (proj1 (list_issues_filtered "P" "Todo" 5
                   (exec (cache_session_issues "P" [sample_issue "X" "first title"] 3) (init None))
                   (sample_issue "X" "first title") [] _) _)).
  - reflexivity.
  - discriminate.
Defined.

(** X11: [get_issue].  For a cached id it returns the cached entry and
    records no API call; for an id that is not cached it returns [None],
    records one API call and caches nothing, so the next [get_issue] for
    that id misses again. *)
Theorem get_issue_hit_or_miss issue_id now self :
  (forall entry,
     eval (get_cached_issue issue_id) self = Some entry ->
     eval (get_issue issue_id now) self = Some entry /\
     exec (get_issue issue_id now) self = self) /\
  (eval (get_cached_issue issue_id) self = None ->
     eval (get_issue issue_id now) self = None /\
     api_call_count (exec (get_issue issue_id now) self) = (api_call_count self + 1)%Z /\
     forall later,
       eval (get_issue issue_id later) (exec (get_issue issue_id now) self) = None) /\
  (forall issue_data t,
     is_Some (eval (get_issue issue_id now) (exec (cache_issue issue_id issue_data t) self)) /\
     api_call_count (exec (get_issue issue_id now) (exec (cache_issue issue_id issue_data t) self))
       = api_call_count self).
Proof.
  assert (Hhit : forall c entry,
    eval (get_cached_issue issue_id) c = Some entry ->
    eval (get_issue issue_id now) c = Some entry /\ exec (get_issue issue_id now) c = c).
  { intros c entry Hcached. unfold get_issue. rewrite eval_bind, exec_bind, Hcached.
    split; reflexivity. }
  assert (Hmiss : forall c later,
    eval (get_cached_issue issue_id) c = None ->
    eval (get_issue issue_id later) c = None /\
    exec (get_issue issue_id later) c = exec (track_api_call later) c).
  { intros c later Hnone. unfold get_issue. rewrite eval_bind, exec_bind, Hnone.
    rewrite eval_bind, exec_bind. split; reflexivity. }
  split; [|split].
  - intros entry. apply Hhit.
  - intros Hnone. destruct (Hmiss self now Hnone) as [Heval Hexec].
    split; [exact Heval|]. rewrite Hexec. split; [reflexivity|].
    intros later. apply Hmiss.
    unfold get_cached_issue, eval, gets in *. cbn [fst] in *.
    by rewrite (proj2 (track_api_call_tiers now self)).
  - intros issue_data t.
    destruct (cache_issue_cached self issue_id issue_data t) as [entry Hentry].
    destruct (Hhit (exec (cache_issue issue_id issue_data t) self) entry Hentry) as [-> ->].
    split; [eauto|].
    by pose proof (cache_issue_counters self issue_id issue_data t) as [= -> _].
Qed.

(** *** More on get_api_stats *)


(** X13: the [cached_issues] figure of [get_api_stats] counts the ids of
    the permanent tier: [cache_issue] raises it by one for an id that was
    not cached and leaves it as it is for an id that was. *)
Theorem cache_issue_cached_issues self issue_id issue_data now :
  cached_issues (eval get_api_stats (exec (cache_issue issue_id issue_data now) self)) =
  match eval (get_cached_issue issue_id) self with
  | Some _ => cached_issues (eval get_api_stats self)
  | None => S (cached_issues (eval get_api_stats self))
  end.
Proof.
  assert (Hsize : forall c,
    cached_issues (eval get_api_stats c) = size (permanent_cache_issues c)) by reflexivity.
  rewrite !Hsize.
  change (eval (get_cached_issue issue_id) self) with (permanent_cache_issues self !! issue_id).
  destruct (permanent_cache_issues self !! issue_id) as [e|] eqn:Hlook.
  - rewrite cache_issue_present by eauto. reflexivity.
  - rewrite cache_issue_absent by exact Hlook. cbn. by apply map_size_insert_None.
Qed.

End linear_cache_facts.

(** ** Properties of linear_enhanced.py *)

Module linear_enhanced_facts.
Import linear_enhanced.

Ltac run := unfold eval, exec, bind, ret, gets, modify, _save_project_data in *; cbn in *.

(** *** Milestones *)

(** The threshold of an item of [MILESTONES] does not exceed [p]. *)
Definition passed (p : Q) (item : string * Milestone) : Prop :=
  (inject_Z (target_percentage (snd item)) <= p)%Q.

Definition as_current (key : string) (milestone : Milestone) : CurrentMilestone :=
  {| current_key := key;
     current_name := milestone_name milestone;
     current_description := milestone_description milestone;
     current_target := target_percentage milestone |}.

Lemma first_milestone_above_passed p before rest :
  Forall (passed p) before ->
  first_milestone_above p (before ++ rest) = first_milestone_above p rest.
Proof.
  induction 1 as [|[key milestone] before Hpassed _ IH]; [reflexivity|].
  cbn. apply Qltb_ge in Hpassed. cbn in Hpassed. rewrite Hpassed. exact IH.
Qed.

Lemma first_milestone_above_comp p q items :
  (p == q)%Q -> first_milestone_above p items = first_milestone_above q items.
Proof.
  intros Hpq. induction items as [|[key milestone] items IH]; [reflexivity|].
  cbn. rewrite IH. unfold Qltb.
  rewrite (Qcompare_comp p q Hpq _ _ (Qeq_refl _)). reflexivity.
Qed.

Lemma determine_current_milestone_key p :
  current_key (determine_current_milestone p) =
  if Qltb p 10 then "setup"
  else if Qltb p 40 then "core"
  else if Qltb p 75 then "features"
  else if Qltb p 95 then "polish"
  else "complete".
Proof.
  unfold determine_current_milestone. cbn. unfold inject_Z.
  destruct (Qltb p 10); [reflexivity|].
  destruct (Qltb p 40); [reflexivity|].
  destruct (Qltb p 75); [reflexivity|].
  destruct (Qltb p 95); [reflexivity|].
  destruct (Qltb p 100); reflexivity.
Qed.

(** C5: [determine_current_milestone p] is the first milestone, in the order
    setup(10), core(40), features(75), polish(95), complete(100), whose
    threshold is strictly above [p], and 'complete' when there is none.  A
    percentage equal to a threshold goes to the next milestone (40 gives
    'features'), every [p >= 95] gives 'complete', and equal percentages give
    the same milestone. *)
Theorem determine_current_milestone_first_above p :
  List.map (fun item => (fst item, target_percentage (snd item))) MILESTONES =
    [("setup", 10%Z); ("core", 40%Z); ("features", 75%Z); ("polish", 95%Z); ("complete", 100%Z)] /\
  (forall before key milestone after,
     MILESTONES = before ++ (key, milestone) :: after ->
     Forall (passed p) before ->
     (p < inject_Z (target_percentage milestone))%Q ->
     determine_current_milestone p = as_current key milestone) /\
  (Forall (passed p) MILESTONES ->
     determine_current_milestone p = as_current "complete" complete_milestone) /\
  ((p == 40)%Q -> current_key (determine_current_milestone p) = "features") /\
  ((95 <= p)%Q -> current_key (determine_current_milestone p) = "complete") /\
  (forall q, (p == q)%Q -> determine_current_milestone p = determine_current_milestone q).
Proof.
  split; [reflexivity|].
  split.
  { intros before key milestone after Hsplit Hbefore Hlt.
    unfold determine_current_milestone. rewrite Hsplit.
    rewrite first_milestone_above_passed by exact Hbefore.
    cbn. apply Qltb_lt in Hlt. rewrite Hlt. reflexivity. }
  split.
  { intros Hall. unfold determine_current_milestone.
    rewrite <- (app_nil_r MILESTONES).
    rewrite first_milestone_above_passed by exact Hall. reflexivity. }
  split.
  { intros Hp. rewrite determine_current_milestone_key.
    assert (H10 : (10 <= p)%Q) by lra. assert (H40 : (40 <= p)%Q) by lra.
    assert (H75 : (p < 75)%Q) by lra.
    apply Qltb_ge in H10, H40. apply Qltb_lt in H75.
    rewrite H10, H40, H75. reflexivity. }
  split.
  { intros Hp. rewrite determine_current_milestone_key.
    assert (H10 : (10 <= p)%Q) by lra. assert (H40 : (40 <= p)%Q) by lra.
    assert (H75 : (75 <= p)%Q) by lra.
    apply Qltb_ge in H10, H40, H75, Hp.
    rewrite H10, H40, H75, Hp. reflexivity. }
  intros q Hpq. unfold determine_current_milestone.
  rewrite (first_milestone_above_comp p q) by exact Hpq. reflexivity.
Qed.

(** *** Health *)


(** *** Session history *)

(** C10: after [update_session_history] the dict has a [session_history]
    and its [session_count] is the length of that history, whatever
    [session_count] held before. *)
Theorem update_session_history_count session_summary now pd :
  let pd' := exec (update_session_history session_summary now) pd in
  exists history,
    session_history pd' = Some history /\
    session_count pd' = Some (Z.of_nat (length history)) /\
    history = default [] (session_history pd) ++ [session_summary].
Proof.
  cbv zeta. unfold update_session_history.
  destruct pd as [count [h|] [hh|] [vh|]]; run;
    (eexists; split; [reflexivity|]; split; reflexivity).
Qed.

(** *** Progress *)

Lemma calculate_progress_pure issues pd :
  exec (calculate_progress issues) pd = pd.
Proof.
  reflexivity.
Qed.

Lemma calculate_progress_completed issues pd :
  completed (eval (calculate_progress issues) pd) = count_state "Done" issues.
Proof.
  reflexivity.
Qed.

Lemma calculate_progress_velocity_unfold issues pd :
  velocity (eval (calculate_progress issues) pd) =
  py_round
    (if (0 <? default 1%Z (session_count pd))%Z
     then int_truediv (count_state "Done" issues) (default 1%Z (session_count pd))
     else 0%Q) 2.
Proof.
  reflexivity.
Qed.

(** The float that [calculate_progress] computes for a non-empty list
    before it rounds it to one decimal. *)
Definition raw_percentage (issues : list Issue) : Q :=
  float_mul
    (float_div
       (float_add (float_of_int (count_state "Done" issues))
          (float_mul (25 # 100) (float_of_int (count_state "In Progress" issues))))
       (float_of_int (Z.of_nat (length issues))))
    (float_of_int 100).

Lemma calculate_progress_percentage_unfold issues pd :
  progress_percentage (eval (calculate_progress issues) pd) =
  py_round (if (0 <? Z.of_nat (length issues))%Z then raw_percentage issues else 0%Q) 1.
Proof.
  reflexivity.
Qed.

Definition with_state (name : option string) : Issue :=
  {| issue_id := Some "PRO-56";
     issue_title := Some "Login form";
     issue_description := None;
     issue_priority := Some 2%Z;
     issue_state_name := name |}.

(** C4, as stated, fails: with the [session_count] of 0 that
    [create_initializer_summary] stores and one issue that is Done, the
    velocity is 0, not [completed / max(0, 1) = 1]. *)
Lemma calculate_progress_velocity_zero_sessions :
  let result := eval (calculate_progress [with_state (Some "Done")]) create_initializer_summary in
  session_count create_initializer_summary = Some 0%Z /\
  completed result = 1%Z /\
  (velocity result == 0)%Q /\
  ~ (velocity result == inject_Z (completed result) / inject_Z (Z.max 0 1))%Q.
Proof.
  vm_compute. repeat split. discriminate.
Qed.

(** C4, amended: for a stored [session_count] of [n] from 0 to 2^53,
    [calculate_progress] returns the velocity 0 when [n = 0], and the float
    [completed / max(n, 1)] rounded to two decimals when [n >= 1]; the
    division by zero is guarded by the result 0, not by counting zero
    sessions as one.  [project_data], and so the stored [session_count], is
    left as it was. *)
Theorem calculate_progress_velocity issues pd n :
  session_count pd = Some n ->
  (0 <= n <= 2 ^ 53)%Z ->
  let result := eval (calculate_progress issues) pd in
  (velocity result ==
     if (n =? 0)%Z then 0
     else py_round (int_truediv (completed result) (Z.max n 1)) 2)%Q /\
  exec (calculate_progress issues) pd = pd.
Proof.
  intros Hstored Hn result. subst result. split; [|apply calculate_progress_pure].
  rewrite calculate_progress_velocity_unfold, calculate_progress_completed, Hstored.
  change (default 1%Z (Some n)) with n.
  destruct (Z.eqb_spec n 0) as [-> | Hne].
  - change (0 <? 0)%Z with false. apply (py_round_inject 0). lia.
  - assert (Hpos : (0 <? n)%Z = true) by (apply Z.ltb_lt; lia).
    rewrite Hpos, Z.max_l by lia. reflexivity.
Qed.

Lemma calculate_progress_velocity_witness :
  (velocity (eval (calculate_progress [with_state (Some "Done")])
               (set_session_count (Some 40%Z) create_initializer_summary))
   == py_round (int_truediv 1 (Z.max 40 1)) 2)%Q.
Proof.
  apply (calculate_progress_velocity
           [with_state (Some "Done")]
           (set_session_count (Some 40%Z) create_initializer_summary) 40).
  - reflexivity.
  - lia.
Defined.

(** One issue Done in 40 sessions: the float 1/40 lies above 0.025, so the
    velocity is the double 0.03, not 0.02. *)
Lemma calculate_progress_velocity_above_tie :
  (velocity (eval (calculate_progress [with_state (Some "Done")])
               (set_session_count (Some 40%Z) create_initializer_summary))
   == double (3 # 100))%Q /\
  (1 # 40 < int_truediv 1 40)%Q.
Proof.
  vm_compute. split; reflexivity.
Qed.

(** [issue['state'] = {'name': name}], the other keys as they were. *)
Definition set_state_name (name : string) (issue : Issue) : Issue :=
  {| issue_id := issue_id issue;
     issue_title := issue_title issue;
     issue_description := issue_description issue;
     issue_priority := issue_priority issue;
     issue_state_name := Some name |}.

(** The transitions of an issue: from a state that is neither 'Done' nor
    'In Progress' (or from no state) to 'In Progress', and from
    'In Progress' to 'Done'. *)
Inductive advances : option string -> string -> Prop :=
| advances_start old :
    old <> Some "Done" -> old <> Some "In Progress" -> advances old "In Progress"
| advances_finish :
    advances (Some "In Progress") "Done".

Lemma count_state_insert name before (issue : Issue) after :
  count_state name (before ++ issue :: after) =
  (count_state name before
   + (if bool_decide (issue_state_name issue = Some name) then 1 else 0)
   + count_state name after)%Z.
Proof.
  unfold count_state. rewrite List.filter_app. cbn [List.filter].
  destruct (bool_decide (issue_state_name issue = Some name));
    rewrite List.length_app; cbn [length]; lia.
Qed.

Lemma length_insert_issue before (issue other : Issue) after :
  length (before ++ issue :: after) = length (before ++ other :: after).
Proof.
  rewrite !List.length_app. reflexivity.
Qed.

Lemma count_total_pos before (issue : Issue) after :
  (0 <? Z.of_nat (length (before ++ issue :: after)))%Z = true.
Proof.
  apply Z.ltb_lt. rewrite List.length_app. cbn [length]. lia.
Qed.

(** The weighted count of the progress formula does not decrease. *)
Lemma advances_weight before issue after name :
  advances (issue_state_name issue) name ->
  (inject_Z (count_state "Done" (before ++ issue :: after))
   + (25 # 100) * inject_Z (count_state "In Progress" (before ++ issue :: after))
   <= inject_Z (count_state "Done" (before ++ set_state_name name issue :: after))
      + (25 # 100) * inject_Z (count_state "In Progress" (before ++ set_state_name name issue :: after)))%Q.
Proof.
  intros Hadv. rewrite !count_state_insert. cbn [set_state_name issue_state_name].
  destruct Hadv as [old Hdone Hprogress | ].
  - rewrite (bool_decide_eq_false_2 _ Hdone), (bool_decide_eq_false_2 _ Hprogress).
    rewrite bool_decide_eq_false_2 by discriminate.
    rewrite bool_decide_eq_true_2 by reflexivity.
    rewrite !inject_Z_plus. change (inject_Z 0) with 0%Q. change (inject_Z 1) with 1%Q. lra.
  - rewrite (bool_decide_eq_false_2 (Some "In Progress" = Some "Done")) by discriminate.
    rewrite (bool_decide_eq_true_2 (Some "In Progress" = Some "In Progress")) by reflexivity.
    rewrite (bool_decide_eq_true_2 (Some "Done" = Some "Done")) by reflexivity.
    rewrite (bool_decide_eq_false_2 (Some "Done" = Some "In Progress")) by discriminate.
    rewrite !inject_Z_plus. change (inject_Z 0) with 0%Q. change (inject_Z 1) with 1%Q. lra.
Qed.

Lemma count_state_nonneg name issues : (0 <= count_state name issues)%Z.
Proof.
  unfold count_state. lia.
Qed.

(** No issue is counted both as Done and as In Progress. *)
Lemma count_state_disjoint issues :
  (count_state "Done" issues + count_state "In Progress" issues
   + Z.of_nat (length (List.filter
       (fun i => negb (bool_decide (issue_state_name i = Some "Done"))
                 && negb (bool_decide (issue_state_name i = Some "In Progress"))) issues))
   = Z.of_nat (length issues))%Z.
Proof.
  unfold count_state. induction issues as [|issue issues IH]; [reflexivity|].
  cbn [List.filter length].
  destruct (bool_decide (issue_state_name issue = Some "Done")) eqn:Hdone;
    destruct (bool_decide (issue_state_name issue = Some "In Progress")) eqn:Hprogress;
    cbn [negb andb length]; try lia.
  apply bool_decide_eq_true in Hdone, Hprogress. congruence.
Qed.

Lemma weighted_bounds issues :
  (0 <= inject_Z (count_state "Done" issues)
        + (25 # 100) * inject_Z (count_state "In Progress" issues))%Q /\
  (inject_Z (count_state "Done" issues)
   + (25 # 100) * inject_Z (count_state "In Progress" issues)
   <= inject_Z (Z.of_nat (length issues)))%Q.
Proof.
  pose proof (count_state_disjoint issues) as Hsum.
  pose proof (count_state_nonneg "Done" issues) as Hdone.
  pose proof (count_state_nonneg "In Progress" issues) as Hprogress.
  set (c := count_state "Done" issues) in *.
  set (p := count_state "In Progress" issues) in *.
  assert (Hc : (0 <= inject_Z c)%Q) by (change 0%Q with (inject_Z 0); by rewrite <- Zle_Qle).
  assert (Hp : (0 <= inject_Z p)%Q) by (change 0%Q with (inject_Z 0); by rewrite <- Zle_Qle).
  assert (Hle : (inject_Z (c + p) <= inject_Z (Z.of_nat (length issues)))%Q)
    by (rewrite <- Zle_Qle; lia).
  rewrite inject_Z_plus in Hle. split; lra.
Qed.

(** The percentage as a function of the exact weighted count [w] and of
    the number of issues: two roundings after the sum. *)
Definition scaled_percentage (w total : Q) : Q :=
  double (double (double w / total) * 100).

Lemma scaled_percentage_mono (w w' total : Q) :
  (0 <= w)%Q -> (w <= w')%Q -> (0 < total)%Q ->
  (0 <= scaled_percentage w total)%Q /\
  (scaled_percentage w total <= scaled_percentage w' total)%Q.
Proof.
  intros Hw Hww Htotal. unfold scaled_percentage.
  pose proof (double_nonneg w Hw) as Hdw.
  pose proof (double_mono w w' Hw Hww) as Hdww.
  assert (Hinv : (0 < / total)%Q) by (by apply Qinv_lt_0_compat).
  assert (Hq : (0 <= double w / total)%Q) by (unfold Qdiv; nra).
  assert (Hqq : (double w / total <= double w' / total)%Q) by (unfold Qdiv; nra).
  pose proof (double_nonneg _ Hq) as Hdq.
  pose proof (double_mono _ _ Hq Hqq) as Hdqq.
  split.
  - apply double_nonneg. lra.
  - apply double_mono; lra.
Qed.

(** While the counts are at most 2^53 the conversions of the counts and
    the product by 0.25 are exact: only the sum, the quotient and the
    product by 100 round. *)
Lemma raw_percentage_scaled issues :
  (Z.of_nat (length issues) <= 2 ^ 53)%Z ->
  (raw_percentage issues ==
   scaled_percentage
     (inject_Z (count_state "Done" issues)
      + (25 # 100) * inject_Z (count_state "In Progress" issues))
     (inject_Z (Z.of_nat (length issues))))%Q.
Proof.
  intros Hlen.
  pose proof (count_state_disjoint issues) as Hsum.
  pose proof (count_state_nonneg "Done" issues) as Hdone.
  pose proof (count_state_nonneg "In Progress" issues) as Hprogress.
  unfold raw_percentage, scaled_percentage, float_mul, float_div, float_add, float_of_int.
  set (c := count_state "Done" issues) in *.
  set (p := count_state "In Progress" issues) in *.
  set (total := Z.of_nat (length issues)) in *.
  assert (Hquarter : ((25 # 100) * inject_Z p == inject_Z p * 2 ^ (-2))%Q).
  { assert (Hpow : (2 ^ (-2) == 1 # 4)%Q) by reflexivity. rewrite Hpow. ring. }
  assert (Hexact : (double ((25 # 100) * inject_Z p) == (25 # 100) * inject_Z p)%Q).
  { rewrite Hquarter. apply double_exact. lia. }
  rewrite (double_inject c), (double_inject p), (double_inject total), (double_inject 100) by lia.
  rewrite Hexact. reflexivity.
Qed.

Lemma scaled_percentage_full (total : Z) :
  (0 < total <= 2 ^ 53)%Z ->
  (scaled_percentage (inject_Z total) (inject_Z total) == 100)%Q.
Proof.
  intros Htotal. unfold scaled_percentage.
  assert (Hpos : (0 < inject_Z total)%Q) by (change 0%Q with (inject_Z 0); rewrite <- Zlt_Qlt; lia).
  rewrite (double_inject total) by lia.
  assert (Hone : (inject_Z total / inject_Z total == inject_Z 1)%Q) by (field; lra).
  rewrite Hone, (double_inject 1) by lia.
  assert (Hfull : (inject_Z 1 * 100 == inject_Z 100)%Q) by reflexivity.
  rewrite Hfull. apply double_inject. lia.
Qed.

(** C9: [calculate_progress] returns the progress percentage 0 for the
    empty list; and moving one issue from a todo or unrecognized state to
    'In Progress', or from 'In Progress' to 'Done', the other issues being
    the same, never decreases the returned (rounded) progress percentage,
    for a list of at most 2^53 issues (the counts that a float holds
    exactly). *)
Theorem progress_percentage_monotone pd :
  (progress_percentage (eval (calculate_progress []) pd) == 0)%Q /\
  forall before issue after name,
    (Z.of_nat (length (before ++ issue :: after)) <= 2 ^ 53)%Z ->
    advances (issue_state_name issue) name ->
    (progress_percentage (eval (calculate_progress (before ++ issue :: after)) pd)
     <= progress_percentage
          (eval (calculate_progress (before ++ set_state_name name issue :: after)) pd))%Q.
Proof.
  split.
  - rewrite calculate_progress_percentage_unfold. apply (py_round_inject 0). lia.
  - intros before issue after name Hlen Hadv.
    rewrite !calculate_progress_percentage_unfold, !count_total_pos.
    assert (Hlen' : (Z.of_nat (length (before ++ set_state_name name issue :: after)) <= 2 ^ 53)%Z)
      by (by rewrite (length_insert_issue before (set_state_name name issue) issue after)).
    assert (Htotal : (0 < inject_Z (Z.of_nat (length (before ++ issue :: after))))%Q).
    { change 0%Q with (inject_Z 0). rewrite <- Zlt_Qlt.
      apply Z.ltb_lt, count_total_pos. }
    pose proof (raw_percentage_scaled _ Hlen) as Hold.
    pose proof (raw_percentage_scaled _ Hlen') as Hnew.
    rewrite (length_insert_issue before (set_state_name name issue) issue after) in Hnew.
    destruct (weighted_bounds (before ++ issue :: after)) as [Hw _].
    pose proof (advances_weight before issue after name Hadv) as Hww.
    destruct (scaled_percentage_mono _ _ _ Hw Hww Htotal) as [Hnonneg Hle].
    rewrite (py_round_comp _ _ 1 Hold), (py_round_comp _ _ 1 Hnew).
    by apply py_round_mono.
Qed.

Lemma progress_percentage_monotone_witness :
  (progress_percentage
     (eval (calculate_progress
              ([with_state (Some "Done")] ++ with_state (Some "In Progress")
                 :: replicate 18 (with_state (Some "In Progress"))))
        create_initializer_summary)
   <= progress_percentage
        (eval (calculate_progress
                 ([with_state (Some "Done")]
                    ++ set_state_name "Done" (with_state (Some "In Progress"))
                    :: replicate 18 (with_state (Some "In Progress"))))
           create_initializer_summary))%Q.
Proof.
  apply (proj2 (progress_percentage_monotone create_initializer_summary)
           [with_state (Some "Done")] (with_state (Some "In Progress"))
           (replicate 18 (with_state (Some "In Progress"))) "Done").
  - vm_compute. discriminate.
  - apply advances_finish.
Defined.

(** One issue Done and nineteen In Progress: the float computed is
    28.749999999999996, so the percentage is the double 28.7; finishing one
    more issue raises it to the double 32.5. *)
Lemma progress_percentage_below_tie :
  (progress_percentage
     (eval (calculate_progress (with_state (Some "Done") :: replicate 19 (with_state (Some "In Progress"))))
        create_initializer_summary)
   == double (287 # 10))%Q /\
  (progress_percentage
     (eval (calculate_progress
              (with_state (Some "Done") :: set_state_name "Done" (with_state (Some "In Progress"))
                 :: replicate 18 (with_state (Some "In Progress"))))
        create_initializer_summary)
   == double (325 # 10))%Q.
Proof.
  vm_compute. split; reflexivity.
Qed.

(** *** More on calculate_progress *)

Lemma calculate_progress_counts issues pd :
  let result := eval (calculate_progress issues) pd in
  total_issues result = Z.of_nat (length issues) /\
  completed result = count_state "Done" issues /\
  in_progress result = count_state "In Progress" issues /\
  todo result = (Z.of_nat (length issues) - count_state "Done" issues
                 - count_state "In Progress" issues)%Z.
Proof.
  repeat split.
Qed.

(** X14: the counts of [calculate_progress] partition the list:
    [completed + in_progress + todo = total_issues = len(issues)], none of
    them is negative, and [todo] is the number of issues whose state name is
    neither 'Done' nor 'In Progress' (a missing state included). *)
Theorem calculate_progress_partition issues pd :
  let result := eval (calculate_progress issues) pd in
  total_issues result = Z.of_nat (length issues) /\
  (completed result + in_progress result + todo result = total_issues result)%Z /\
  (0 <= completed result)%Z /\
  (0 <= in_progress result)%Z /\
  (0 <= todo result)%Z /\
  todo result =
    Z.of_nat (length (List.filter
      (fun i => negb (bool_decide (issue_state_name i = Some "Done"))
                && negb (bool_decide (issue_state_name i = Some "In Progress"))) issues)).
Proof.
  cbv zeta. destruct (calculate_progress_counts issues pd) as (-> & -> & -> & ->).
  pose proof (count_state_disjoint issues).
  pose proof (count_state_nonneg "Done" issues).
  pose proof (count_state_nonneg "In Progress" issues).
  repeat split; lia.
Qed.

(** X15: for a list of at most 2^53 issues, the [progress_percentage]
    returned by [calculate_progress] lies between 0 and 100, the roundings
    of the float arithmetic and of [round] included. *)
Theorem progress_percentage_bounds issues pd :
  (Z.of_nat (length issues) <= 2 ^ 53)%Z ->
  (0 <= progress_percentage (eval (calculate_progress issues) pd))%Q /\
  (progress_percentage (eval (calculate_progress issues) pd) <= 100)%Q.
Proof.
  intros Hlen. rewrite calculate_progress_percentage_unfold.
  pose proof (py_round_inject 0 1 ltac:(lia)) as Hzero.
  pose proof (py_round_inject 100 1 ltac:(lia)) as Hfull.
  change (inject_Z 0) with 0%Q in Hzero. change (inject_Z 100) with 100%Q in Hfull.
  destruct (0 <? Z.of_nat (length issues))%Z eqn:Htotal; [|lra].
  apply Z.ltb_lt in Htotal.
  assert (Hpos : (0 < inject_Z (Z.of_nat (length issues)))%Q)
    by (change 0%Q with (inject_Z 0); by rewrite <- Zlt_Qlt).
  destruct (weighted_bounds issues) as [Hlow Hhigh].
  rewrite (py_round_comp _ _ 1 (raw_percentage_scaled issues Hlen)).
  destruct (scaled_percentage_mono _ _ _ Hlow Hhigh Hpos) as [Hnonneg Hle].
  rewrite scaled_percentage_full in Hle by lia.
  pose proof (py_round_mono _ _ 1 (Qle_refl 0) Hnonneg) as Hlow'.
  pose proof (py_round_mono _ _ 1 Hnonneg Hle) as Hhigh'.
  split; lra.
Qed.

Lemma progress_percentage_bounds_witness :
  (0 <= progress_percentage
          (eval (calculate_progress
                   (with_state (Some "Done") :: replicate 19 (with_state (Some "In Progress"))))
             create_initializer_summary))%Q /\
  (progress_percentage
     (eval (calculate_progress
              (with_state (Some "Done") :: replicate 19 (with_state (Some "In Progress"))))
        create_initializer_summary) <= 100)%Q.
Proof.
  apply progress_percentage_bounds. vm_compute. discriminate.
Defined.

Lemma count_state_all name issues :
  Forall (fun i => issue_state_name i = Some name) issues ->
  count_state name issues = Z.of_nat (length issues).
Proof.
  unfold count_state. induction 1 as [|issue issues Hstate _ IH]; [reflexivity|].
  cbn [List.filter]. rewrite bool_decide_eq_true_2 by exact Hstate.
  cbn [length]. lia.
Qed.

Lemma count_state_none name issues :
  Forall (fun i => issue_state_name i <> Some name) issues ->
  count_state name issues = 0%Z.
Proof.
  unfold count_state. induction 1 as [|issue issues Hstate _ IH]; [reflexivity|].
  cbn [List.filter]. rewrite bool_decide_eq_false_2 by exact Hstate. exact IH.
Qed.

Lemma determine_current_milestone_comp p q :
  (p == q)%Q -> determine_current_milestone p = determine_current_milestone q.
Proof.
  intros Hpq. unfold determine_current_milestone.
  by rewrite (first_milestone_above_comp p q).
Qed.

Lemma raw_percentage_all_done issues :
  issues <> [] ->
  Forall (fun i => issue_state_name i = Some "Done") issues ->
  (raw_percentage issues == 100)%Q.
Proof.
  intros Hne Hall. unfold raw_percentage, float_mul, float_div, float_add, float_of_int.
  rewrite (count_state_all "Done") by exact Hall.
  rewrite (count_state_none "In Progress")
    by (eapply Forall_impl; [exact Hall|]; cbn; congruence).
  assert (Hlen : (0 < Z.of_nat (length issues))%Z) by (destruct issues; [done | cbn; lia]).
  set (total := inject_Z (Z.of_nat (length issues))).
  assert (Htotal : (0 < total)%Q)
    by (subst total; change 0%Q with (inject_Z 0); by rewrite <- Zlt_Qlt).
  pose proof (double_pos total Htotal) as Hpos.
  assert (Hnone : (double ((25 # 100) * double (inject_Z 0)) == 0)%Q).
  { apply double_zero. rewrite (double_zero (inject_Z 0)) by reflexivity. ring. }
  rewrite Hnone.
  assert (Hsum : (double total + 0 == double total)%Q) by ring.
  rewrite Hsum, double_idem by lra.
  assert (Hone : (double total / double total == inject_Z 1)%Q) by (field; lra).
  rewrite Hone, (double_inject 1), (double_inject 100) by lia.
  assert (Hfull : (inject_Z 1 * inject_Z 100 == inject_Z 100)%Q) by reflexivity.
  rewrite Hfull. apply (double_inject 100). lia.
Qed.

Lemma raw_percentage_none_started issues :
  Forall (fun i => issue_state_name i <> Some "Done" /\
                   issue_state_name i <> Some "In Progress") issues ->
  (raw_percentage issues == 0)%Q.
Proof.
  intros Hnone. unfold raw_percentage, float_mul, float_div, float_add, float_of_int.
  rewrite (count_state_none "Done")
    by (eapply Forall_impl; [exact Hnone|]; cbn; tauto).
  rewrite (count_state_none "In Progress")
    by (eapply Forall_impl; [exact Hnone|]; cbn; tauto).
  assert (Hzero : (double (inject_Z 0) == 0)%Q) by (by apply double_zero).
  rewrite Hzero.
  assert (Hquarter : (double ((25 # 100) * 0) == 0)%Q) by (apply double_zero; ring).
  rewrite Hquarter.
  assert (Hsum : (double (0 + 0) == 0)%Q) by (by apply double_zero).
  rewrite Hsum.
  assert (Hdiv : (double (0 / double (inject_Z (Z.of_nat (length issues)))) == 0)%Q).
  { apply double_zero. unfold Qdiv. ring. }
  rewrite Hdiv. apply double_zero. ring.
Qed.

(** X16: the two ends of the scale.  When every issue of a non-empty list
    is Done, [calculate_progress] returns 100 and
    [determine_current_milestone] of that percentage is 'complete'; when no
    issue is Done or In Progress, it returns 0 and the milestone is
    'setup'. *)
Theorem progress_ends issues pd :
  (issues <> [] ->
   Forall (fun i => issue_state_name i = Some "Done") issues ->
   (progress_percentage (eval (calculate_progress issues) pd) == 100)%Q /\
   current_key (determine_current_milestone
     (progress_percentage (eval (calculate_progress issues) pd))) = "complete") /\
  (Forall (fun i => issue_state_name i <> Some "Done" /\
                    issue_state_name i <> Some "In Progress") issues ->
   (progress_percentage (eval (calculate_progress issues) pd) == 0)%Q /\
   current_key (determine_current_milestone
     (progress_percentage (eval (calculate_progress issues) pd))) = "setup").
Proof.
  split.
  - intros Hne Hall.
    assert (Hpp : (progress_percentage (eval (calculate_progress issues) pd) == 100)%Q).
    { rewrite calculate_progress_percentage_unfold.
      assert (Hlen : (0 < Z.of_nat (length issues))%Z) by (destruct issues; [done | cbn; lia]).
      apply Z.ltb_lt in Hlen. rewrite Hlen.
      rewrite (py_round_comp _ (inject_Z 100) 1) by (by apply raw_percentage_all_done).
      apply (py_round_inject 100). lia. }
    split; [exact Hpp|]. by rewrite (determine_current_milestone_comp _ 100 Hpp).
  - intros Hnone.
    assert (Hpp : (progress_percentage (eval (calculate_progress issues) pd) == 0)%Q).
    { rewrite calculate_progress_percentage_unfold.
      destruct (0 <? Z.of_nat (length issues))%Z; [|apply (py_round_inject 0); lia].
      rewrite (py_round_comp _ (inject_Z 0) 1) by (by apply raw_percentage_none_started).
      apply (py_round_inject 0). lia. }
    split; [exact Hpp|]. by rewrite (determine_current_milestone_comp _ 0 Hpp).
Qed.







(** Nine issues Done, eighteen left, seven sessions: the floats give
    6.999999999999999 days, printed as 6. *)
Lemma estimated_completion_six_days :
  estimated_completion
    (eval (calculate_progress
             (replicate 9 (with_state (Some "Done")) ++ replicate 18 (with_state (Some "Todo"))))
       (set_session_count (Some 7%Z) create_initializer_summary))
  = "6 days".
Proof.
  vm_compute. reflexivity.
Qed.

(** *** More on milestones and health *)

Lemma determine_current_milestone_cases p :
  determine_current_milestone p =
  if Qltb p 10 then as_current "setup" setup_milestone
  else if Qltb p 40 then as_current "core" core_milestone
  else if Qltb p 75 then as_current "features" features_milestone
  else if Qltb p 95 then as_current "polish" polish_milestone
  else as_current "complete" complete_milestone.
Proof.
  unfold determine_current_milestone. cbn. unfold inject_Z.
  destruct (Qltb p 10); [reflexivity|].
  destruct (Qltb p 40); [reflexivity|].
  destruct (Qltb p 75); [reflexivity|].
  destruct (Qltb p 95); [reflexivity|].
  destruct (Qltb p 100); reflexivity.
Qed.

(** X18: the dict returned by [determine_current_milestone] always
    describes an entry of [MILESTONES] (key, name, description and target
    of one entry, the fallback for [p >= 100] included); its target is
    strictly above [p] whenever [p < 100], and it is 100 from [p >= 95]
    on. *)
Theorem determine_current_milestone_entry p :
  let current := determine_current_milestone p in
  (exists milestone,
     (current_key current, milestone) ∈ MILESTONES /\
     current = as_current (current_key current) milestone) /\
  ((p < 100)%Q -> (p < inject_Z (current_target current))%Q) /\
  ((95 <= p)%Q -> current_target current = 100%Z).
Proof.
  cbv zeta. rewrite determine_current_milestone_cases.
  destruct (Qltb p 10) eqn:H10; [|destruct (Qltb p 40) eqn:H40;
    [|destruct (Qltb p 75) eqn:H75; [|destruct (Qltb p 95) eqn:H95]]];
    rewrite ?Qltb_lt, ?Qltb_ge in *;
    (split;
     [ eexists; split; cycle 1;
       [ reflexivity | apply list_elem_of_In; cbn; tauto ]
     | split; intros Hp; cbn; unfold inject_Z;
       first [reflexivity | lra | (exfalso; lra)] ]).
Qed.

(** X19: the milestone never moves back: for [p <= q] the target of the
    milestone of [p] is at most the target of the milestone of [q]. *)
Theorem determine_current_milestone_monotone p q :
  (p <= q)%Q ->
  (current_target (determine_current_milestone p)
   <= current_target (determine_current_milestone q))%Z.
Proof.
  intros Hpq. rewrite !determine_current_milestone_cases.
  destruct (Qltb p 10) eqn:Hp10; [|destruct (Qltb p 40) eqn:Hp40;
    [|destruct (Qltb p 75) eqn:Hp75; [|destruct (Qltb p 95) eqn:Hp95]]];
    (destruct (Qltb q 10) eqn:Hq10; [|destruct (Qltb q 40) eqn:Hq40;
      [|destruct (Qltb q 75) eqn:Hq75; [|destruct (Qltb q 95) eqn:Hq95]]]);
    cbn; try lia; exfalso; rewrite ?Qltb_lt, ?Qltb_ge in *; lra.
Qed.

Lemma determine_current_milestone_monotone_witness :
  (current_target (determine_current_milestone 39)
   <= current_target (determine_current_milestone 40))%Z.
Proof.
  apply determine_current_milestone_monotone. vm_compute. congruence.
Defined.

(** The rank of a health status: the better, the higher. *)
Definition health_rank (status : string) : nat :=
  if decide (status = "on_track") then 2
  else if decide (status = "at_risk") then 1
  else 0.

(** X20: [determine_health_status] returns one of its three names; it
    returns 'off_track' exactly when velocity is at most 0.3 or there are
    at least 10 errors, whatever the progress percentage (which only
    separates 'on_track' from 'at_risk'). *)
Theorem determine_health_status_off_track p v e :
  (determine_health_status p v e = "on_track" \/
   determine_health_status p v e = "at_risk" \/
   determine_health_status p v e = "off_track") /\
  (determine_health_status p v e = "off_track" <-> (v <= 3 # 10)%Q \/ (10 <= e)%Z) /\
  (forall p', determine_health_status p v e = "off_track" <->
              determine_health_status p' v e = "off_track") /\
  (determine_health_status p v e = "on_track" ->
   forall p', determine_health_status p' v e <> "off_track").
Proof.
  assert (Hoff : forall p0,
    determine_health_status p0 v e = "off_track" <-> (v <= 3 # 10)%Q \/ (10 <= e)%Z).
  { intros p0. unfold determine_health_status.
    destruct (Qltb (8 # 10) v) eqn:H1, (e <? 5)%Z eqn:H2, (Qltb 20 p0) eqn:H3,
             (Qltb (3 # 10) v) eqn:H4, (e <? 10)%Z eqn:H5; cbn;
      rewrite ?Qltb_lt, ?Qltb_ge, ?Z.ltb_lt, ?Z.ltb_ge in *;
      intuition first [reflexivity | discriminate | lra | lia]. }
  split; [|split; [apply Hoff | split]].
  - unfold determine_health_status.
    destruct (_ && _ && _); [by left|]. destruct (_ && _); [right; by left | right; by right].
  - intros p'. by rewrite !Hoff.
  - intros Hon p' Hoff'. apply Hoff in Hoff'.
    unfold determine_health_status in Hon.
    destruct (Qltb (8 # 10) v) eqn:H1, (e <? 5)%Z eqn:H2; cbn in Hon;
      rewrite ?Qltb_lt, ?Qltb_ge, ?Z.ltb_lt, ?Z.ltb_ge in *;
      try (destruct (Qltb 20 p)); try (destruct (Qltb (3 # 10) v && (e <? 10)%Z));
      try discriminate; destruct Hoff'; first [lra | lia].
Qed.

(** X21: the health status is monotone: with a velocity and a progress
    percentage at least as high and no more errors, the status is never
    worse (off_track < at_risk < on_track). *)
Theorem determine_health_status_monotone p v e p' v' e' :
  (p <= p')%Q -> (v <= v')%Q -> (e' <= e)%Z ->
  (health_rank (determine_health_status p v e)
   <= health_rank (determine_health_status p' v' e'))%nat.
Proof.
  intros Hp Hv He. unfold determine_health_status.
  destruct (Qltb (8 # 10) v) eqn:H1, (e <? 5)%Z eqn:H2, (Qltb 20 p) eqn:H3,
           (Qltb (3 # 10) v) eqn:H4, (e <? 10)%Z eqn:H5; cbn;
    (destruct (Qltb (8 # 10) v') eqn:H1', (e' <? 5)%Z eqn:H2', (Qltb 20 p') eqn:H3',
              (Qltb (3 # 10) v') eqn:H4', (e' <? 10)%Z eqn:H5'; cbn);
    try (vm_compute; lia);
    exfalso; rewrite ?Qltb_lt, ?Qltb_ge, ?Z.ltb_lt, ?Z.ltb_ge in *; first [lra | lia].
Qed.

Lemma determine_health_status_monotone_witness :
  (health_rank (determine_health_status 50 (5 # 10) 7)
   <= health_rank (determine_health_status 60 1 2))%nat.
Proof.
  apply determine_health_status_monotone; [vm_compute; congruence | vm_compute; congruence | lia].
Defined.

(** *** More on the session history *)

(** The sessions of a run, each with the time of its update. *)
Definition record_sessions (sessions : list (SessionSummary * Q)) : State ProjectData unit :=
  for_each sessions (fun session => update_session_history (fst session) (snd session)).

Lemma update_session_history_step session_summary now pd :
  let pd' := exec (update_session_history session_summary now) pd in
  session_history pd' = Some (default [] (session_history pd) ++ [session_summary]) /\
  session_count pd' = Some (Z.of_nat (length (default [] (session_history pd)) + 1)) /\
  health_history pd' =
    Some (default [] (health_history pd) ++
          [ {| health_timestamp := now;
               health := default "unknown" (summary_health session_summary);
               progress := default 0%Q (summary_progress_percentage session_summary) |} ]) /\
  velocity_history pd' =
    Some (default [] (velocity_history pd) ++
          [ {| velocity_timestamp := now;
               velocity_value := default 0%Q (summary_velocity session_summary);
               issues_completed := default 0%Z (summary_issues_completed session_summary) |} ]).
Proof.
  cbv zeta. unfold update_session_history.
  destruct pd as [count [h|] [hh|] [vh|]]; run;
    rewrite ?List.length_app; cbn [length]; repeat split.
Qed.

(** X22: the three histories of the project data grow together.  After
    the updates of a list of sessions, [session_history] holds the old
    summaries followed by the new ones in order, [health_history] and
    [velocity_history] have one more record per session (the health of a
    summary without one being 'unknown'), and, once a session is recorded,
    [session_count] is the length of [session_history]; a missing history
    counts as empty.  From the data of [create_initializer_summary],
    [session_count] is the number of sessions recorded. *)
Theorem record_sessions_histories sessions pd :
  let pd' := exec (record_sessions sessions) pd in
  default [] (session_history pd') = default [] (session_history pd) ++ List.map fst sessions /\
  List.map health (default [] (health_history pd')) =
    List.map health (default [] (health_history pd))
    ++ List.map (fun session => default "unknown" (summary_health (fst session))) sessions /\
  length (default [] (velocity_history pd')) =
    (length (default [] (velocity_history pd)) + length sessions)%nat /\
  (sessions <> [] ->
   session_count pd' = Some (Z.of_nat (length (default [] (session_history pd'))))) /\
  (pd = create_initializer_summary ->
   session_count pd' = Some (Z.of_nat (length sessions))).
Proof.
  cbv zeta.
  assert (Hgen : forall l start,
    default [] (session_history (exec (record_sessions l) start))
      = default [] (session_history start) ++ List.map fst l /\
    List.map health (default [] (health_history (exec (record_sessions l) start))) =
      List.map health (default [] (health_history start))
      ++ List.map (fun session => default "unknown" (summary_health (fst session))) l /\
    length (default [] (velocity_history (exec (record_sessions l) start))) =
      (length (default [] (velocity_history start)) + length l)%nat /\
    (l <> [] ->
     session_count (exec (record_sessions l) start)
       = Some (Z.of_nat (length (default [] (session_history (exec (record_sessions l) start))))))).
  { induction l as [|[summary now] l IH]; intros start.
    - cbn. rewrite !app_nil_r. repeat split; [lia | done].
    - unfold record_sessions. cbn [for_each fst snd]. rewrite exec_bind.
      destruct (update_session_history_step summary now start) as (Hs & Hc & Hh & Hv).
      cbv zeta in Hs, Hc, Hh, Hv.
      destruct (IH (exec (update_session_history summary now) start)) as (IHs & IHh & IHv & IHc).
      unfold record_sessions in IHs, IHh, IHv, IHc.
      split; [|split; [|split]].
      + rewrite IHs, Hs. cbn. by rewrite <- app_assoc.
      + rewrite IHh, Hh. cbn. by rewrite List.map_app, <- app_assoc.
      + rewrite IHv, Hv. cbn. rewrite List.length_app. cbn. lia.
      + intros _. destruct l as [|next l].
        * cbn [for_each]. change (exec (ret tt) ?s) with s.
          rewrite Hc, Hs. cbn. by rewrite List.length_app.
        * by rewrite IHc. }
  destruct (Hgen sessions pd) as (Hs & Hh & Hv & Hc).
  repeat split; try assumption.
  intros ->. destruct sessions as [|first rest]; [reflexivity|].
  rewrite Hc by discriminate. rewrite Hs. cbn [create_initializer_summary session_history default from_option id app].
  by rewrite List.length_map.
Qed.

(** *** _generate_next_priorities *)

(** The sort key of [_generate_next_priorities]: [x.get('priority', 4)]. *)
Definition priority_key (x : Issue) : Z := default 4%Z (issue_priority x).

Definition todo_issues (all_issues : list Issue) : list Issue :=
  List.filter (fun i => bool_decide (issue_state_name i = Some "Todo")) all_issues.

(** The local variable [top_3]. *)
Definition top_3 (all_issues : list Issue) : list Issue :=
  take 3 (sort_by_key priority_key (todo_issues all_issues)).

Lemma generate_next_priorities_unfold all_issues :
  _generate_next_priorities all_issues =
  match top_3 all_issues with
  | [] => Some all_completed_message
  | _ :: _ =>
      priorities ← mapM next_priority_line (top_3 all_issues);
      Some (join newline priorities)
  end.
Proof.
  reflexivity.
Qed.

Lemma insert_by_key_perm {A : Type} (key : A -> Z) x l :
  insert_by_key key x l ≡ₚ x :: l.
Proof.
  induction l as [|y l IH]; [reflexivity|].
  cbn. destruct (key x <=? key y)%Z; [reflexivity|].
  rewrite IH. apply Permutation_swap.
Qed.

Lemma sort_by_key_perm {A : Type} (key : A -> Z) l :
  sort_by_key key l ≡ₚ l.
Proof.
  induction l as [|x l IH]; [reflexivity|].
  cbn. by rewrite insert_by_key_perm, IH.
Qed.

Lemma insert_by_key_sorted {A : Type} (key : A -> Z) x l :
  StronglySorted (fun a b => (key a <= key b)%Z) l ->
  StronglySorted (fun a b => (key a <= key b)%Z) (insert_by_key key x l).
Proof.
  induction 1 as [|y l Hsorted IH Hall]; cbn.
  - repeat constructor.
  - destruct (key x <=? key y)%Z eqn:Hle.
    + apply Z.leb_le in Hle. constructor; [by constructor|].
      constructor; [exact Hle|].
      eapply Forall_impl; [exact Hall|]. cbn. intros; lia.
    + apply Z.leb_gt in Hle. constructor; [exact IH|].
      rewrite insert_by_key_perm. constructor; [lia | exact Hall].
Qed.

Lemma sort_by_key_sorted {A : Type} (key : A -> Z) l :
  StronglySorted (fun a b => (key a <= key b)%Z) (sort_by_key key l).
Proof.
  induction l as [|x l IH]; [constructor|].
  cbn. by apply insert_by_key_sorted.
Qed.

(** The sort is stable: the issues of one key keep their order. *)
Lemma insert_by_key_stable {A : Type} (key : A -> Z) x l k :
  List.filter (fun a => (key a =? k)%Z) (insert_by_key key x l) =
  List.filter (fun a => (key a =? k)%Z) (x :: l).
Proof.
  induction l as [|y l IH]; [reflexivity|].
  cbn [insert_by_key]. destruct (key x <=? key y)%Z eqn:Hle; [reflexivity|].
  apply Z.leb_gt in Hle. cbn [List.filter] in *. rewrite IH.
  destruct (key x =? k)%Z eqn:Hx, (key y =? k)%Z eqn:Hy; try reflexivity.
  apply Z.eqb_eq in Hx, Hy. lia.
Qed.

Lemma sort_by_key_stable {A : Type} (key : A -> Z) l k :
  List.filter (fun a => (key a =? k)%Z) (sort_by_key key l) =
  List.filter (fun a => (key a =? k)%Z) l.
Proof.
  induction l as [|x l IH]; [reflexivity|].
  cbn [sort_by_key]. rewrite insert_by_key_stable. cbn [List.filter]. by rewrite IH.
Qed.

Lemma top_3_empty all_issues :
  top_3 all_issues = [] <-> Forall (fun i => issue_state_name i <> Some "Todo") all_issues.
Proof.
  unfold top_3.
  assert (Hsort : sort_by_key priority_key (todo_issues all_issues) = [] <->
                  todo_issues all_issues = []).
  { split; intros Hnil.
    - apply Permutation_nil_r. rewrite <- Hnil. symmetry. apply sort_by_key_perm.
    - by rewrite Hnil. }
  assert (Htake : forall (l : list Issue), take 3 l = [] <-> l = []).
  { intros [|x l]; cbn; split; congruence. }
  rewrite Htake, Hsort. clear Htake Hsort. unfold todo_issues.
  induction all_issues as [|issue rest IH]; cbn.
  - split; [constructor | reflexivity].
  - destruct (bool_decide (issue_state_name issue = Some "Todo")) eqn:Htodo.
    + apply bool_decide_eq_true in Htodo. split; [discriminate|].
      intros Hall. apply Forall_cons in Hall as [Hne _]. contradiction.
    + apply bool_decide_eq_false in Htodo. rewrite IH. split.
      * intros Hall. by constructor.
      * intros Hall. by apply Forall_cons in Hall as [_ Hall].
Qed.

Lemma join_lines_start first rest label title :
  first = "- " +:+ label +:+ ": " +:+ title ->
  exists tail, join newline (first :: rest) = String "-" tail.
Proof.
  intros ->. cbn. destruct rest; eexists; reflexivity.
Qed.

(** X23: [_generate_next_priorities] returns the 'All issues completed!'
    text exactly when no issue of the list has the state name 'Todo' (so
    also when issues are still In Progress, and for the empty list);
    otherwise it raises or returns lines, the first of which starts with
    a dash. *)
Theorem generate_next_priorities_completed all_issues :
  (_generate_next_priorities all_issues = Some all_completed_message <->
   Forall (fun i => issue_state_name i <> Some "Todo") all_issues) /\
  (forall text,
     _generate_next_priorities all_issues = Some text ->
     text <> all_completed_message ->
     exists tail, text = String "-" tail).
Proof.
  rewrite generate_next_priorities_unfold.
  assert (Hlines : forall first others text,
    top_3 all_issues = first :: others ->
    (priorities ← mapM next_priority_line (top_3 all_issues);
     Some (join newline priorities)) = Some text ->
    exists tail, text = String "-" tail).
  { intros first others text Htop Hsome. rewrite Htop in Hsome.
    destruct (mapM next_priority_line (first :: others)) as [lines|] eqn:Hmap; [|discriminate].
    injection Hsome as <-.
    apply mapM_Some_1 in Hmap. inversion Hmap as [|x line xs lines' Hline Hrest]; subst.
    unfold next_priority_line in Hline.
    destruct (py_index priority_labels _) as [label|]; [|discriminate].
    injection Hline as <-.
    by eapply join_lines_start. }
  split.
  - rewrite <- top_3_empty.
    destruct (top_3 all_issues) as [|first others] eqn:Htop; [done|].
    split; [|discriminate]. intros Hsome. exfalso.
    destruct (Hlines first others _ eq_refl Hsome) as [tail Htail]. discriminate Htail.
  - intros text Hsome Hne.
    destruct (top_3 all_issues) as [|first others] eqn:Htop; [congruence|].
    by eapply Hlines.
Qed.

(** X24: the issues that [_generate_next_priorities] lists are the (at
    most three) 'Todo' issues with the lowest priority numbers, a missing
    priority counting as 4: they are in order of priority, issues of one
    priority in the order of the input, and no 'Todo' issue left out has a
    lower number than one that is listed.  When the function returns lines,
    there is one line per listed issue, in that order. *)
Theorem generate_next_priorities_selection all_issues :
  let ordered := sort_by_key priority_key (todo_issues all_issues) in
  ordered ≡ₚ todo_issues all_issues /\
  StronglySorted (fun a b => (priority_key a <= priority_key b)%Z) ordered /\
  (forall k, List.filter (fun a => (priority_key a =? k)%Z) ordered =
             List.filter (fun a => (priority_key a =? k)%Z) (todo_issues all_issues)) /\
  top_3 all_issues = take 3 ordered /\
  length (top_3 all_issues) = (3 `min` length (todo_issues all_issues))%nat /\
  (forall listed left_out,
     listed ∈ top_3 all_issues -> left_out ∈ drop 3 ordered ->
     (priority_key listed <= priority_key left_out)%Z) /\
  (forall text,
     top_3 all_issues <> [] ->
     _generate_next_priorities all_issues = Some text ->
     exists lines,
       text = join newline lines /\
       Forall2 (fun issue line => next_priority_line issue = Some line)
         (top_3 all_issues) lines).
Proof.
  cbv zeta.
  pose proof (sort_by_key_perm priority_key (todo_issues all_issues)) as Hperm.
  pose proof (sort_by_key_sorted priority_key (todo_issues all_issues)) as Hsorted.
  split; [exact Hperm|]. split; [exact Hsorted|].
  split; [intros k; apply sort_by_key_stable|].
  split; [reflexivity|]. split; [|split].
  - unfold top_3. rewrite length_take, (Permutation_length Hperm). lia.
  - intros listed left_out Hin Hout. unfold top_3 in Hin.
    rewrite <- (take_drop 3 (sort_by_key priority_key (todo_issues all_issues))) in Hsorted.
    by eapply (StronglySorted_app_1_elem_of _ _ _ _ _ Hsorted).
  - intros text Hne. rewrite generate_next_priorities_unfold.
    destruct (top_3 all_issues) as [|first others] eqn:Htop; [done|].
    destruct (mapM next_priority_line (first :: others)) as [lines|] eqn:Hmap; [|discriminate].
    intros [= <-]. exists lines. split; [reflexivity|]. by apply mapM_Some_1.
Qed.

Lemma py_index_priority_labels (k : Z) :
  (is_Some (py_index priority_labels k) <-> (-4 <= k < 4)%Z) /\
  ((-4 <= k < 0)%Z -> py_index priority_labels k = py_index priority_labels (k + 4)).
Proof.
  assert (Hcases : (k < -4 \/ k = -4 \/ k = -3 \/ k = -2 \/ k = -1 \/ k = 0 \/ k = 1
                    \/ k = 2 \/ k = 3 \/ 4 <= k)%Z) by lia.
  destruct Hcases as [Hlow | [-> | [-> | [-> | [-> | [-> | [-> | [-> | [-> | Hhigh]]]]]]]]];
    try (split; [split; [intros _; lia | intros _; vm_compute; eauto]
                | first [intros _; reflexivity | lia]]).
  - assert (Hnone : py_index priority_labels k = None).
    { unfold py_index. cbn [length priority_labels].
      destruct (0 <=? k)%Z eqn:H0; [apply Z.leb_le in H0; lia|].
      destruct (- Z.of_nat 4 <=? k)%Z eqn:H4; [apply Z.leb_le in H4; lia | reflexivity]. }
    rewrite Hnone. split; [|lia]. split; [intros [? [=]] | lia].
  - assert (Hnone : py_index priority_labels k = None).
    { unfold py_index. cbn [length priority_labels].
      destruct (0 <=? k)%Z eqn:H0; [|apply Z.leb_gt in H0; lia].
      apply lookup_ge_None_2. unfold priority_labels. cbn [length]. lia. }
    rewrite Hnone. split; [|lia]. split; [intros [? [=]] | lia].
Qed.

(** [issue['priority'] = priority], the other keys as they were. *)
Definition set_priority (priority : Z) (issue : Issue) : Issue :=
  {| issue_id := issue_id issue;
     issue_title := issue_title issue;
     issue_description := issue_description issue;
     issue_priority := Some priority;
     issue_state_name := issue_state_name issue |}.

(** X25: the label of an issue in [_generate_next_priorities] is taken at
    index [priority - 1] of a list of four, a missing priority being 4.
    A priority from 1 to 4, or none, gives a line; a priority from -3 to 0
    gives the line of the priority four higher (the negative index counts
    from the end: priority 0 is labelled like 4); any other priority
    raises [IndexError].  The function raises exactly when one of the
    issues it lists has such a priority, so it returns a text whenever
    every 'Todo' issue has a priority from 1 to 4 or none. *)
Theorem generate_next_priorities_index all_issues :
  (forall issue,
     (next_priority_line issue = None <->
      (priority_key issue < -3)%Z \/ (4 < priority_key issue)%Z) /\
     ((-3 <= priority_key issue <= 0)%Z ->
      next_priority_line issue =
      next_priority_line (set_priority (priority_key issue + 4) issue))) /\
  (_generate_next_priorities all_issues = None <->
   Exists (fun issue => (priority_key issue < -3)%Z \/ (4 < priority_key issue)%Z)
     (top_3 all_issues)) /\
  (Forall (fun issue => issue_state_name issue = Some "Todo" ->
                        (1 <= priority_key issue <= 4)%Z) all_issues ->
   is_Some (_generate_next_priorities all_issues)).
Proof.
  assert (Hline : forall issue,
    next_priority_line issue = None <->
    (priority_key issue < -3)%Z \/ (4 < priority_key issue)%Z).
  { intros issue. unfold next_priority_line. cbv zeta. fold (priority_key issue).
    destruct (py_index_priority_labels (priority_key issue - 1)) as [Hsome _].
    destruct (py_index priority_labels (priority_key issue - 1)) as [label|] eqn:Hidx; cbn.
    - split; [discriminate|]. intros Hbad.
      assert (Hrange : (-4 <= priority_key issue - 1 < 4)%Z) by (apply Hsome; eauto). lia.
    - split; [|reflexivity]. intros _.
      destruct (Z.lt_ge_cases (priority_key issue) (-3)) as [|Hlow]; [by left|].
      destruct (Z.lt_ge_cases 4 (priority_key issue)) as [|Hhigh]; [by right|].
      assert (Hin : is_Some (@None string)) by (apply Hsome; lia).
      by destruct Hin. }
  assert (Hraise : _generate_next_priorities all_issues = None <->
    Exists (fun issue => (priority_key issue < -3)%Z \/ (4 < priority_key issue)%Z)
      (top_3 all_issues)).
  { rewrite generate_next_priorities_unfold.
    destruct (top_3 all_issues) as [|first others] eqn:Htop.
    - split; [discriminate | intros Hex; inversion Hex].
    - rewrite <- Htop.
      assert (Hmap : mapM next_priority_line (top_3 all_issues) = None <->
                     Exists (fun issue => (priority_key issue < -3)%Z \/ (4 < priority_key issue)%Z)
                       (top_3 all_issues)).
      { rewrite mapM_None, !Exists_exists.
        split; intros (issue & Hin & Hbad); exists issue; (split; [exact Hin | by apply Hline]). }
      rewrite <- Hmap.
      destruct (mapM next_priority_line (top_3 all_issues)); cbn; split; congruence. }
  split; [|split; [exact Hraise|]].
  - intros issue. split; [apply Hline|].
    intros Hrange. unfold next_priority_line. cbv zeta. fold (priority_key issue).
    cbn [set_priority issue_priority issue_title default from_option id].
    destruct (py_index_priority_labels (priority_key issue - 1)) as [_ Hwrap].
    rewrite Hwrap by lia. do 2 f_equal. lia.
  - intros Hall.
    destruct (_generate_next_priorities all_issues) as [text|] eqn:Hresult; [eauto|].
    exfalso. destruct Hraise as [Hex _]. specialize (Hex eq_refl).
    apply Exists_exists in Hex as (issue & Hin & Hbad).
    assert (Htodo : issue ∈ todo_issues all_issues).
    { unfold top_3 in Hin. apply elem_of_take in Hin as (j & Hj & _).
      apply list_elem_of_lookup_2 in Hj.
      by rewrite (sort_by_key_perm priority_key (todo_issues all_issues)) in Hj. }
    unfold todo_issues in Htodo. apply list_elem_of_In, List.filter_In in Htodo as [Hmem Hstate].
    apply bool_decide_eq_true in Hstate.
    rewrite Forall_forall in Hall. apply list_elem_of_In in Hmem.
    specialize (Hall issue Hmem Hstate). lia.
Qed.

End linear_enhanced_facts.
